(** * Wormhole: relay store, transfer codes and the encrypted envelope

    A shallow embedding of the parts of the wormhole client and relay that
    carry invariants:

    - [wormhole-relay/src/store.ts]: the in-memory [TransferStore];
    - [wormhole/src/codes.ts]: [parseCode], [isValidCode] and the word list;
    - [wormhole/src/crypto.ts]: the envelope built by [encrypt] and taken
      apart by [decrypt];
    - [wormhole/src/index.ts], [transfer.ts]: [send] and [receive];
    - [wormhole-relay/src/server.js]: the request handler;
    - [wormhole/src/cli.ts]: [parseFlags] and the dispatch of [main];
    - [wormhole/src/slurp.ts]: [parseV1Content] and [isSlurpArchive].

    Conventions.  A JavaScript number that holds a size, a count or a
    millisecond timestamp is an integer ([Z], or [nat] for a length); all
    the values the code computes with stay far below 2^53, where doubles are
    exact.  A [Buffer] is a [list byte].  A string is a [string] of 8-bit
    characters where the code inspects it only through character classes
    of ASCII, which a character beyond them fails like any other character
    outside the class; the archive parser, whose white space reaches
    beyond ASCII, has its strings as lists of UTF-16 code units.  A method
    that mutates its object
    takes the object and returns the new one next to its result.  A call of
    [Date.now()] is an explicit argument [now].  A thrown [Error] is the
    [Throw] case of [result]. *)

From Stdlib Require Import ZArith NArith List String Ascii Bool.
From Stdlib Require Import Strings.Byte.
From stdpp Require Import gmap strings list fin_maps pretty.

Local Open Scope Z_scope.

(** ** Results of code that may throw *)

Inductive result (A : Type) : Type :=
| Ok (value : A)
| Throw (message : string).
Arguments Ok {A} value.
Arguments Throw {A} message.

(** ** The relay's store ([wormhole-relay/src/store.ts]) *)

Record TransferEntry : Type := mkEntry {
  data : list byte;
  createdAt : Z;
  metadata : option string;
}.

Record StoreOptions : Type := mkOptions {
  opt_maxSize : option Z;
  opt_ttlMs : option Z;
  opt_cleanupIntervalMs : option Z;
}.

(** [{ ok: true } | { ok: false; error: string }] *)
Inductive PutResult : Type :=
| PutOk
| PutError (error : string).

Module TransferStore.

(** The object's fields.  [cleanupTimer] holds the interval the timer was
    armed with, or [None] once it has been cleared. *)
Record t : Type := mk {
  entries : gmap string TransferEntry;
  cleanupTimer : option Z;
  maxSize : Z;
  ttlMs : Z;
}.

(** [constructor(opts)]: [??] falls back to the default on a missing field. *)
Definition new (opts : StoreOptions) : t :=
  {| entries := ∅;
     cleanupTimer := Some (default 60000 (opt_cleanupIntervalMs opts));
     maxSize := default 1048576 (opt_maxSize opts);
     ttlMs := default 600000 (opt_ttlMs opts) |}.

Definition with_entries (s : t) (m : gmap string TransferEntry) : t :=
  {| entries := m; cleanupTimer := cleanupTimer s;
     maxSize := maxSize s; ttlMs := ttlMs s |}.

Definition put (id : string) (data : list byte) (metadata : option string)
    (now : Z) (s : t) : PutResult * t :=
  if bool_decide (Z.of_nat (length data) > maxSize s) then
    (PutError ("Payload too large: " +:+ pretty (length data)
               +:+ " bytes (max " +:+ pretty (maxSize s) +:+ ")"), s)
  else if bool_decide (is_Some (entries s !! id)) then
    (PutError "Transfer ID already exists", s)
  else
    (PutOk, with_entries s (<[id := mkEntry data now metadata]> (entries s))).

Definition get (id : string) (s : t) : option TransferEntry * t :=
  match entries s !! id with
  | None => (None, s)
  | Some entry => (Some entry, with_entries s (base.delete id (entries s)))
  end.

Definition has (id : string) (s : t) : bool :=
  bool_decide (is_Some (entries s !! id)).

Definition count (s : t) : nat := size (entries s).

(** One turn of the loop of [cleanup] on the pair of the map and the counter
    [removed]. *)
Definition cleanup_step (now ttl : Z) (id : string) (entry : TransferEntry)
    (acc : gmap string TransferEntry * nat) : gmap string TransferEntry * nat :=
  if bool_decide (now - createdAt entry > ttl)
  then (base.delete id acc.1, S acc.2)
  else acc.

(** [cleanup()]: the loop visits every entry of the map once; deleting the
    entry being visited does not disturb a [Map]'s iteration. *)
Definition cleanup (now : Z) (s : t) : nat * t :=
  let r := map_fold (cleanup_step now (ttlMs s)) (entries s, 0%nat) (entries s) in
  (r.2, with_entries s r.1).

Definition destroy (s : t) : t :=
  {| entries := ∅; cleanupTimer := None;
     maxSize := maxSize s; ttlMs := ttlMs s |}.

(** [delete(id)]: [Map.prototype.delete] answers whether the key was there. *)
Definition delete (id : string) (s : t) : bool * t :=
  (bool_decide (is_Some (entries s !! id)),
   with_entries s (base.delete id (entries s))).

End TransferStore.

(** ** Transfer codes ([wormhole/src/codes.ts]) *)

Module Codes.

(** The word list, as in the source. *)
Definition WORDS : list string := [
  "acid"; "acorn"; "acre"; "agent"; "album"; "alert"; "alien"; "alley"; "amber"; "angel";
  "angle"; "ankle"; "anvil"; "apple"; "apron"; "arena"; "atlas"; "axle"; "badge"; "bagel";
  "baker"; "balm"; "bamboo"; "banjo"; "barn"; "baron"; "basin"; "batch"; "beach"; "beard";
  "beast"; "bench"; "berry"; "birch"; "blade"; "blank"; "blast"; "blaze"; "bloom"; "bluff";
  "board"; "booth"; "boulder"; "brain"; "brass"; "brave"; "brick"; "bridge"; "brisk"; "brook";
  "brush"; "bubble"; "bucket"; "buddy"; "buggy"; "bunny"; "cabin"; "cable"; "camel"; "candy";
  "canoe"; "cargo"; "cedar"; "chain"; "chalk"; "charm"; "chase"; "chess"; "chill"; "china";
  "choir"; "chunk"; "cider"; "cigar"; "circle"; "civic"; "claim"; "clamp"; "clash"; "cliff";
  "climb"; "clock"; "cloud"; "clown"; "coach"; "cobra"; "cocoa"; "comet"; "coral"; "couch";
  "crane"; "crash"; "crest"; "crisp"; "cross"; "crowd"; "crown"; "crush"; "curve"; "cycle";
  "dagger"; "dairy"; "dance"; "delta"; "demon"; "derby"; "diary"; "ditch"; "dodge"; "donut";
  "draft"; "dragon"; "drama"; "dream"; "drift"; "drill"; "drone"; "drum"; "dune"; "dwarf";
  "eagle"; "earth"; "easel"; "eclipse"; "elder"; "ember"; "emoji"; "epoch"; "equip"; "event";
  "exile"; "fable"; "faith"; "falcon"; "feast"; "fence"; "ferry"; "fiber"; "field"; "flame";
  "flash"; "fleet"; "flint"; "float"; "flood"; "flora"; "flute"; "focus"; "forge"; "forum";
  "fossil"; "fox"; "frame"; "frost"; "fruit"; "fudge"; "fungi"; "fury"; "galaxy"; "gamma";
  "garden"; "garlic"; "gauge"; "gavel"; "ghost"; "giant"; "ginger"; "glacier"; "glaze"; "globe";
  "glove"; "glyph"; "goat"; "goblet"; "grace"; "grain"; "grape"; "gravel"; "green"; "grill";
  "grove"; "guard"; "guild"; "guitar"; "gypsy"; "habit"; "hammer"; "harbor"; "haven"; "hawk";
  "hazel"; "heart"; "hedge"; "heron"; "honey"; "honor"; "horse"; "hotel"; "humor"; "hydra";
  "ivory"; "jacket"; "jade"; "jaguar"; "jewel"; "joker"; "judge"; "juice"; "jungle"; "karma";
  "kayak"; "kernel"; "kiosk"; "knight"; "knob"; "label"; "lace"; "lake"; "lance"; "lantern";
  "larch"; "laser"; "latch"; "lava"; "leaf"; "ledge"; "lemon"; "lens"; "lever"; "light";
  "lilac"; "linen"; "lion"; "llama"; "lodge"; "lotus"; "lunar"; "lunch"; "mango"; "manor";
  "maple"; "marsh"; "mason"; "match"; "maze"; "medal"; "melon"; "mesa"; "metal"; "micro";
  "miner"; "mint"; "moat"; "model"; "molar"; "money"; "moose"; "morph"; "moth"; "motor";
  "mount"; "mouse"; "mural"; "music"; "myth"; "navel"; "nerve"; "nexus"; "noble"; "north";
  "notch"; "novel"; "nudge"; "oasis"; "ocean"; "olive"; "omega"; "onion"; "opera"; "orbit";
  "organ"; "otter"; "outer"; "oxide"; "oyster"; "panda"; "panel"; "paper"; "park"; "patch";
  "pearl"; "pedal"; "penny"; "petal"; "phase"; "piano"; "pilot"; "pinch"; "pixel"; "pizza";
  "plank"; "plant"; "plaza"; "plumb"; "plume"; "poach"; "polar"; "pond"; "porch"; "pouch";
  "pound"; "prism"; "probe"; "prong"; "prose"; "proud"; "prune"; "pulse"; "punch"; "pupil";
  "quail"; "quake"; "query"; "quest"; "quill"; "quota"; "radar"; "radio"; "raven"; "realm";
  "ridge"; "rivet"; "robin"; "robot"; "rogue"; "roost"; "rover"; "ruby"; "rugby"; "rumor";
  "salad"; "salon"; "salsa"; "sandy"; "sauce"; "sauna"; "scale"; "scout"; "shark"; "shelf";
  "shell"; "shift"; "shirt"; "shock"; "shore"; "shrub"; "sigma"; "silk"; "siren"; "skull";
  "slate"; "sleek"; "slice"; "slope"; "smoke"; "snail"; "snake"; "solar"; "sonic"; "space";
  "spark"; "spear"; "spice"; "spike"; "spine"; "spoke"; "spoon"; "spray"; "squid"; "staff";
  "stage"; "stake"; "stamp"; "steam"; "steel"; "steep"; "steer"; "stern"; "stone"; "stork";
  "storm"; "stove"; "straw"; "sugar"; "surge"; "swamp"; "swarm"; "swift"; "sword"; "syrup";
  "table"; "talon"; "tango"; "thorn"; "tiara"; "tidal"; "tiger"; "toast"; "topaz"; "torch";
  "tower"; "trace"; "trail"; "train"; "tramp"; "trend"; "tribe"; "trick"; "trout"; "truck";
  "tulip"; "tumor"; "tundra"; "turbo"; "turf"; "tweed"; "ultra"; "umber"; "unity"; "urban";
  "usher"; "valve"; "vault"; "venom"; "verse"; "vigor"; "villa"; "viola"; "viper"; "vivid";
  "vocal"; "vodka"; "vortex"; "wafer"; "wagon"; "waltz"; "watch"; "water"; "whale"; "wheat";
  "wheel"; "whirl"; "widow"; "wings"; "witch"; "wizard"; "world"; "wound"; "wrist"; "yacht";
  "yield"; "zebra"; "zinc"; "cozy"; "haze"; "dome"; "pine"; "reef"; "sage"; "tide";
  "vine"; "wren"; "yoke"; "zone"; "arch"; "bolt"; "cape"; "claw"; "cone"; "cork";
  "dusk"; "elm"; "fang"; "fern"; "fist"; "gale"; "gem"; "glen"; "harp"; "helm";
  "hive"; "hull"; "iris"; "isle"; "jolt"; "kelp"; "kiln"; "knot"; "lamp"; "lark"
]%string.

(** The character classes of the regular expression: [\d] is an ASCII digit
    and [[a-z]] an ASCII lower-case letter. *)
Definition is_digit (c : ascii) : bool :=
  (48 <=? nat_of_ascii c)%nat && (nat_of_ascii c <=? 57)%nat.

Definition is_lower (c : ascii) : bool :=
  (97 <=? nat_of_ascii c)%nat && (nat_of_ascii c <=? 122)%nat.

(** [span p s]: the longest prefix of [s] whose characters satisfy [p], and
    what follows it; this is what a greedy [c+] consumes when the next
    thing to match is a character outside the class. *)
Fixpoint span (p : ascii -> bool) (s : string) : string * string :=
  match s with
  | EmptyString => (EmptyString, EmptyString)
  | String c rest =>
      if p c then (String c (span p rest).1, (span p rest).2)
      else (EmptyString, s)
  end.

(** [code.match(/^(\d+)-([a-z]+)-([a-z]+)$/)]: the three groups, or [None]
    for [null].  The hyphen belongs to neither class, so each group is the
    maximal run of its class and no backtracking changes the outcome. *)
Definition match_code (code : string) : option (string * string * string) :=
  let d := span is_digit code in
  match d.1, d.2 with
  | String _ _, String "-" r1 =>
      let w1 := span is_lower r1 in
      match w1.1, w1.2 with
      | String _ _, String "-" r2 =>
          let w2 := span is_lower r2 in
          match w2.1, w2.2 with
          | String _ _, EmptyString => Some (d.1, w1.1, w2.1)
          | _, _ => None
          end
      | _, _ => None
      end
  | _, _ => None
  end.

Definition digit_value (c : ascii) : Z := Z.of_nat (nat_of_ascii c) - 48.

(** [parseInt(s, 10)] on a run of digits: its decimal value.  [parseCode]
    calls it on the first group of the match only. *)
Fixpoint parseInt_from (acc : Z) (s : string) : Z :=
  match s with
  | EmptyString => acc
  | String c rest =>
      if is_digit c then parseInt_from (10 * acc + digit_value c) rest else acc
  end.

Definition parseInt10 (s : string) : Z := parseInt_from 0 s.

Record ParsedCode : Type := mkParsed {
  number : Z;
  word1 : string;
  word2 : string;
}.

Definition parseCode (code : string) : option ParsedCode :=
  match match_code code with
  | None => None
  | Some (g1, g2, g3) =>
      let num := parseInt10 g1 in
      if bool_decide (num < 1) || bool_decide (num > 999) then None
      else Some (mkParsed num g2 g3)
  end.

Definition isValidCode (code : string) : bool :=
  bool_decide (parseCode code <> None).

(** [generateCode()].  The draws of [crypto.randomInt] are arguments: [num]
    from [randomInt(1, 1000)], [i1] and [i2] from [randomInt(WORDS.length)]
    (indices below [WORDS.length]), and [more] the further draws the
    [while] loop takes.  [None] stands for a loop that has used up [more]
    and is still running. *)
Fixpoint redraw (w1 w2 : string) (more : list nat) {struct more}
    : option string :=
  if bool_decide (w2 = w1) then
    match more with
    | [] => None
    | i :: rest => redraw w1 (nth i WORDS EmptyString) rest
    end
  else Some w2.

Definition generateCode (num : Z) (i1 i2 : nat) (more : list nat)
    : option string :=
  let w1 := nth i1 WORDS EmptyString in
  match redraw w1 (nth i2 WORDS EmptyString) more with
  | None => None
  | Some w2 => Some (pretty num +:+ "-" +:+ w1 +:+ "-" +:+ w2)
  end.

End Codes.

(** ** Bytes and results

    Bytes are compared through their numbers; [result] is an error monad. *)

Lemma byte_to_N_inj (a b : byte) : Byte.to_N a = Byte.to_N b -> a = b.
Proof.
  intros H. apply (f_equal Byte.of_N) in H.
  rewrite !Byte.of_to_N in H. by injection H.
Qed.

#[global] Instance byte_eq_dec : EqDecision byte :=
  fun a b =>
    match decide (Byte.to_N a = Byte.to_N b) with
    | left H => left (byte_to_N_inj a b H)
    | right H => right (fun E => H (f_equal Byte.to_N E))
    end.

#[global] Instance result_bind : MBind result :=
  fun A B f r => match r with Ok a => f a | Throw m => Throw m end.

(** ** Node's [crypto] module: AES-256-GCM

    [crypto.ts] calls [createCipheriv('aes-256-gcm', key, iv)] and
    [createDecipheriv].  The cipher is not code of the repository; it is
    written out here after the standards it implements (FIPS 197 for AES,
    NIST SP 800-38D for GCM), for the one parameter set the repository
    uses: a 256-bit key, a 96-bit IV, a 128-bit tag, no associated data.
    The known answers of the standards are checked further down. *)

Module NodeCrypto.

Local Open Scope N_scope.

(** *** The field GF(2^8) and the S-box (FIPS 197, sections 4 and 5.1.1) *)

Definition xtime (a : N) : N :=
  if 128 <=? a then N.lxor (2 * a - 256) 27 else 2 * a.

Fixpoint gf_mul_bits (bits : nat) (a b : N) : N :=
  match bits with
  | O => 0
  | S n => N.lxor (if N.odd b then a else 0) (gf_mul_bits n (xtime a) (N.div2 b))
  end.

Definition gf_mul (a b : N) : N := gf_mul_bits 8 a b.

(** The inverse of [a] is [a^254]; zero is mapped to zero. *)
Definition gf_inv (a : N) : N := Nat.iter 253 (gf_mul a) a.

Definition rotl8 (b : N) (n : N) : N :=
  N.lor (N.shiftl b n mod 256) (N.shiftr b (8 - n)).

Definition sbox_of (b : N) : N :=
  let i := gf_inv b in
  N.lxor (N.lxor (N.lxor (N.lxor (N.lxor i (rotl8 i 1)) (rotl8 i 2))
                    (rotl8 i 3)) (rotl8 i 4)) 99.

Definition sbox_table : list N :=
  Eval vm_compute in map (fun i => sbox_of (N.of_nat i)) (seq 0 256).

Definition sbox (b : N) : N := nth (N.to_nat b) sbox_table 0.

(** *** AES-256 (FIPS 197, section 5), on bytes held as numbers *)

Definition xor_bytes (a b : list N) : list N := zip_with N.lxor a b.

Fixpoint words (n : nat) (l : list N) : list (list N) :=
  match n with
  | O => []
  | S m => take 4 l :: words m (drop 4 l)
  end.

Definition rot_word (w : list N) : list N :=
  match w with
  | [] => []
  | a :: rest => rest ++ [a]
  end.

Definition rcon (j : nat) : list N := [Nat.iter (j - 1) xtime 1; 0; 0; 0].

(** [expand n i w]: [w] holds the words [0 .. i-1] of the key schedule; add
    the next [n] words (key expansion with [Nk = 8]). *)
Fixpoint expand (n i : nat) (w : list (list N)) : list (list N) :=
  match n with
  | O => w
  | S m =>
      let prev := nth (i - 1) w [] in
      let temp :=
        if (i mod 8 =? 0)%nat then
          xor_bytes (map sbox (rot_word prev)) (rcon (i / 8))
        else if (i mod 8 =? 4)%nat then map sbox prev
        else prev in
      expand m (S i) (w ++ [xor_bytes (nth (i - 8) w []) temp])
  end.

Definition key_expansion (key : list N) : list (list N) :=
  expand 52 8 (words 8 key).

Definition round_key (w : list (list N)) (r : nat) : list N :=
  concat (take 4 (drop (4 * r) w)).

Definition shift_rows (st : list N) : list N :=
  map (fun i => nth (i mod 4 + 4 * ((i / 4 + i mod 4) mod 4)) st 0)
      (seq 0 16).

Definition mix_column (c : list N) : list N :=
  match c with
  | [s0; s1; s2; s3] =>
      [N.lxor (N.lxor (gf_mul 2 s0) (gf_mul 3 s1)) (N.lxor s2 s3);
       N.lxor (N.lxor s0 (gf_mul 2 s1)) (N.lxor (gf_mul 3 s2) s3);
       N.lxor (N.lxor s0 s1) (N.lxor (gf_mul 2 s2) (gf_mul 3 s3));
       N.lxor (N.lxor (gf_mul 3 s0) s1) (N.lxor s2 (gf_mul 2 s3))]
  | _ => c
  end.

Definition mix_columns (st : list N) : list N :=
  concat (map mix_column (words 4 st)).

Definition aes_round (w : list (list N)) (st : list N) (r : nat) : list N :=
  xor_bytes (mix_columns (shift_rows (map sbox st))) (round_key w r).

Definition aes256_encrypt_block (key block : list N) : list N :=
  let w := key_expansion key in
  let st := fold_left (aes_round w) (seq 1 13)
              (xor_bytes block (round_key w 0)) in
  xor_bytes (shift_rows (map sbox st)) (round_key w 14).

(** *** GCM (NIST SP 800-38D) with a 96-bit IV and no associated data.
    A block is a number below 2^128, its first byte the most significant. *)

Definition block_of_bytes (bs : list N) : N :=
  fold_left (fun acc b => acc * 256 + b) bs 0.

Definition bytes_of_block (x : N) : list N :=
  map (fun i => N.shiftr x (8 * (15 - N.of_nat i)) mod 256) (seq 0 16).

(** [E K x]: the block cipher on a block. *)
Definition E (key : list N) (x : N) : N :=
  block_of_bytes (aes256_encrypt_block key (bytes_of_block x)).

(** Multiplication in GF(2^128) (section 6.3); [R] is [11100001 || 0^120]. *)
Definition R : N := N.shiftl 225 120.

Fixpoint gf128_mul_bits (n : nat) (i : N) (x z v : N) : N :=
  match n with
  | O => z
  | S m =>
      gf128_mul_bits m (i + 1) x
        (if N.testbit x (127 - i) then N.lxor z v else z)
        (if N.testbit v 0 then N.lxor (N.shiftr v 1) R else N.shiftr v 1)
  end.

Definition gf128_mul (x y : N) : N := gf128_mul_bits 128 0 x 0 y.

Definition ghash (h : N) (blocks : list N) : N :=
  fold_left (fun y b => gf128_mul (N.lxor y b) h) blocks 0.

(** The pre-counter block [J0 = IV || 0^31 || 1] and [inc32] applied [j]
    times to it. *)
Definition J0 (iv : list N) : N := block_of_bytes iv * 2 ^ 32 + 1.

Definition counter (iv : list N) (j : N) : N :=
  block_of_bytes iv * 2 ^ 32 + (1 + j) mod 2 ^ 32.

(** The blocks of [ct], the last one padded with zero bytes. *)
Fixpoint blocks_of (n : nat) (ct : list N) : list N :=
  match n with
  | O => []
  | S m =>
      block_of_bytes (take 16 (ct ++ repeat 0 16)) :: blocks_of m (drop 16 ct)
  end.

Definition tag_block (key iv ct : list N) : N :=
  let h := E key 0 in
  let len := 8 * N.of_nat (length ct) in
  let s := ghash h (blocks_of ((length ct + 15) / 16) ct ++ [len]) in
  N.lxor (E key (J0 iv)) s.

(** Byte [i] of the key stream that GCTR, started at [inc32(J0)], combines
    with the data. *)
Definition keystream_byte (key iv : list N) (i : nat) : N :=
  nth (i mod 16)
      (bytes_of_block (E key (counter iv (1 + N.of_nat (i / 16))))) 0.

(** *** The byte interface *)

Definition byte_of_N (n : N) : byte := default x00 (Byte.of_N (n mod 256)).

Definition bxor (a b : byte) : byte :=
  byte_of_N (N.lxor (Byte.to_N a) (Byte.to_N b)).

(** The [n] bytes of the key stream from byte offset [off] on. *)
Definition gcm_keystream (key iv : list byte) (off n : nat) : list byte :=
  map (fun i => byte_of_N (keystream_byte (map Byte.to_N key) (map Byte.to_N iv) i))
      (seq off n).

(** The 16-byte authentication tag of the ciphertext [ct]. *)
Definition gcm_tag (key iv ct : list byte) : list byte :=
  map byte_of_N
      (bytes_of_block
         (tag_block (map Byte.to_N key) (map Byte.to_N iv) (map Byte.to_N ct))).

(** *** The [Cipher] and [Decipher] objects

    A [Cipher] remembers its key and IV and the ciphertext it has put out;
    a [Decipher] remembers the ciphertext it has taken in and the tag it
    was given. *)

Record Cipher : Type := mkCipher {
  c_key : list byte;
  c_iv : list byte;
  c_out : list byte;
}.

Record Decipher : Type := mkDecipher {
  d_key : list byte;
  d_iv : list byte;
  d_in : list byte;
  d_tag : option (list byte);
}.

(** [createCipheriv('aes-256-gcm', key, iv)] *)
Definition createCipheriv (key iv : list byte) : result Cipher :=
  if bool_decide (length key = 32%nat) then Ok (mkCipher key iv [])
  else Throw "Invalid key length".

Definition cipher_update (c : Cipher) (data : list byte) : list byte * Cipher :=
  let out :=
    zip_with bxor data
      (gcm_keystream (c_key c) (c_iv c) (length (c_out c)) (length data)) in
  (out, mkCipher (c_key c) (c_iv c) (c_out c ++ out)).

(** [cipher.final()]: a stream mode holds nothing back. *)
Definition cipher_final (c : Cipher) : list byte * Cipher := ([], c).

Definition getAuthTag (c : Cipher) : list byte :=
  gcm_tag (c_key c) (c_iv c) (c_out c).

(** [createDecipheriv('aes-256-gcm', key, iv)] *)
Definition createDecipheriv (key iv : list byte) : result Decipher :=
  if bool_decide (length key = 32%nat) then Ok (mkDecipher key iv [] None)
  else Throw "Invalid key length".

Definition setAuthTag (d : Decipher) (tag : list byte) : Decipher :=
  mkDecipher (d_key d) (d_iv d) (d_in d) (Some tag).

Definition decipher_update (d : Decipher) (data : list byte)
    : list byte * Decipher :=
  (zip_with bxor data
     (gcm_keystream (d_key d) (d_iv d) (length (d_in d)) (length data)),
   mkDecipher (d_key d) (d_iv d) (d_in d ++ data) (d_tag d)).

(** [decipher.final()]: compares the tag of what was taken in with the tag
    that was set, and throws when they differ. *)
Definition decipher_final (d : Decipher) : result (list byte) :=
  if bool_decide (d_tag d = Some (gcm_tag (d_key d) (d_iv d) (d_in d)))
  then Ok []
  else Throw "Unsupported state or unable to authenticate data".

End NodeCrypto.

(** ** The envelope ([wormhole/src/crypto.ts]) *)

Module Crypto.
Import NodeCrypto.

Definition ENCRYPTION_SALT : string := "wormhole-encryption-v1".
Definition RELAY_SALT : string := "wormhole-relay-key-v1".
Definition PBKDF2_ITERATIONS : Z := 100000.
Definition KEY_LENGTH : nat := 32.
Definition IV_LENGTH : nat := 12.
Definition AUTH_TAG_LENGTH : nat := 16.

(** [buf.subarray(start, end)] for [0 <= start]; an [end] past the buffer
    is clamped and an [end] before [start] gives the empty buffer. *)
Definition subarray (buf : list byte) (start end_ : nat) : list byte :=
  take (end_ - start) (drop start buf).

(** [encrypt(plaintext, key)]; [iv] is what [crypto.randomBytes(IV_LENGTH)]
    returned. *)
Definition encrypt (iv : list byte) (plaintext key : list byte)
    : result (list byte) :=
  cipher ← createCipheriv key iv;
  let '(part1, cipher) := cipher_update cipher plaintext in
  let '(part2, cipher) := cipher_final cipher in
  let encrypted := part1 ++ part2 in
  let authTag := getAuthTag cipher in
  Ok (iv ++ encrypted ++ authTag).

Definition decrypt (blob key : list byte) : result (list byte) :=
  if bool_decide (length blob < IV_LENGTH + AUTH_TAG_LENGTH)%nat then
    Throw "Invalid encrypted blob: too short"
  else
    let iv := subarray blob 0 IV_LENGTH in
    let authTag := drop (length blob - AUTH_TAG_LENGTH) blob in
    let ciphertext := subarray blob IV_LENGTH (length blob - AUTH_TAG_LENGTH) in
    decipher ← createDecipheriv key iv;
    let decipher := setAuthTag decipher authTag in
    let '(part1, decipher) := decipher_update decipher ciphertext in
    part2 ← decipher_final decipher;
    Ok (part1 ++ part2).

(** [key.toString('hex')] *)
Definition hex_digit (n : N) : ascii :=
  ascii_of_N (if (n <? 10)%N then 48 + n else 87 + n).

Fixpoint to_hex (buf : list byte) : string :=
  match buf with
  | [] => EmptyString
  | b :: rest =>
      String (hex_digit (Byte.to_N b / 16))
        (String (hex_digit (Byte.to_N b mod 16)) (to_hex rest))
  end.

End Crypto.

(** ** The client ([wormhole/src/index.ts], [transfer.ts]) against the relay

    [pbkdf2Sync] is Node's; it is a parameter here.  The relay is a
    [TransferStore] reached through the handlers of [server.js] for
    [PUT] and [GET] on [/transfer/:id]; the routing of a request to its
    handler is in [Server] below. *)

(** What a request leaves behind, for statements about the order of work. *)
Inductive Effect : Type :=
| DerivedEncryptionKey (code : string)
| DerivedRelayKey (code : string)
| Fetched (method url : string).

Module Relay.
Import TransferStore.

(** [handlePut]: the body arrives in chunks; the running size is checked
    after each chunk, and a body that passes is handed to [put] whole. *)
Fixpoint exceeds (max size : Z) (chunks : list (list byte)) : bool :=
  match chunks with
  | [] => false
  | chunk :: rest =>
      let size := size + Z.of_nat (length chunk) in
      if bool_decide (size > max) then true else exceeds max size rest
  end.

Definition handlePut (id : string) (chunks : list (list byte)) (now : Z)
    (s : t) : Z * string * t :=
  if exceeds (maxSize s) 0 chunks then
    (413, "Payload too large (max " +:+ pretty (maxSize s) +:+ " bytes)", s)
  else
    let r := put id (concat chunks) None now s in
    match r.1 with
    | PutOk => (201, EmptyString, r.2)
    | PutError error => (409, error, r.2)
    end.

(** [handleGet]: the status and, for 200, the body. *)
Definition handleGet (id : string) (s : t) : Z * list byte * t :=
  match get id s with
  | (None, s') => (404, [], s')
  | (Some entry, s') => (200, data entry, s')
  end.

End Relay.

Section Client.

(** [crypto.pbkdf2Sync(password, salt, iterations, keylen, digest)] *)
Variable pbkdf2Sync : string -> string -> Z -> nat -> string -> list byte.

Definition deriveEncryptionKey (code : string) : list byte :=
  pbkdf2Sync code Crypto.ENCRYPTION_SALT Crypto.PBKDF2_ITERATIONS
    Crypto.KEY_LENGTH "sha256".

Definition deriveRelayKey (code : string) : string :=
  let key :=
    pbkdf2Sync code Crypto.RELAY_SALT Crypto.PBKDF2_ITERATIONS
      Crypto.KEY_LENGTH "sha256" in
  Crypto.to_hex key.

(** [download(relayKey)] of [transfer.ts], answered by [handleGet]. *)
Definition download (relayKey : string) (relay : TransferStore.t)
    : result (list byte) * TransferStore.t :=
  let '(status, body, relay') := Relay.handleGet relayKey relay in
  if bool_decide (status = 404) then
    (Throw "Transfer not found or already retrieved", relay')
  else (Ok body, relay').

(** [upload(relayKey, data)] of [transfer.ts], answered by [handlePut]; the
    request body travels as the chunks [split data]. *)
Definition upload (split : list byte -> list (list byte)) (relayKey : string)
    (data : list byte) (now : Z) (relay : TransferStore.t)
    : result unit * TransferStore.t :=
  let '(status, error, relay') :=
    Relay.handlePut relayKey (split data) now relay in
  if bool_decide (200 <= status <= 299) then (Ok tt, relay')
  else (Throw ("Upload failed: " +:+ error), relay').

(** [send] from the payload on: [code] is [opts.code ?? generateCode()] and
    [payload] the packed file or directory.  The result is [payload.length]. *)
Definition send (iv : list byte) (split : list byte -> list (list byte))
    (code : string) (payload : list byte) (now : Z) (relay : TransferStore.t)
    : result nat * TransferStore.t :=
  let encKey := deriveEncryptionKey code in
  let relayKey := deriveRelayKey code in
  match Crypto.encrypt iv payload encKey with
  | Throw m => (Throw m, relay)
  | Ok encrypted =>
      match upload split relayKey encrypted now relay with
      | (Throw m, relay') => (Throw m, relay')
      | (Ok _, relay') => (Ok (length payload), relay')
      end
  end.

(** [receive(code)] up to the decrypted payload: the effects in the order
    they happen, the payload or the error, and the relay afterwards. *)
Definition receive (code : string) (relay : TransferStore.t)
    : list Effect * result (list byte) * TransferStore.t :=
  if negb (Codes.isValidCode code) then
    ([], Throw ("Invalid wormhole code: " +:+ code), relay)
  else
    let encKey := deriveEncryptionKey code in
    let relayKey := deriveRelayKey code in
    let effects :=
      [DerivedEncryptionKey code; DerivedRelayKey code;
       Fetched "GET" ("/transfer/" +:+ relayKey)] in
    match download relayKey relay with
    | (Throw m, relay') => (effects, Throw m, relay')
    | (Ok encrypted, relay') =>
        (effects, Crypto.decrypt encrypted encKey, relay')
    end.

End Client.

(** ** The relay's request handler ([wormhole-relay/src/server.js])

    A request is its method, the path of its URL and the chunks of its
    body.  The body of a response is kept as the value that the handler
    serialises; the CORS headers, which every response carries, and the
    [uptime] field of the health report, a reading of the process clock,
    are left out. *)

Module Server.
Import TransferStore.

Inductive Body : Type :=
| JsonError (error : string)
| JsonOk
| JsonStored (size : nat)
| JsonHealth (transfers : nat)
| Bytes (data : list byte)
| NoBody.

Record Response : Type := mkResponse {
  status : Z;
  body : Body;
}.

(** The class [[a-f0-9]]. *)
Definition is_hex (c : ascii) : bool :=
  Codes.is_digit c
  || ((97 <=? nat_of_ascii c)%nat && (nat_of_ascii c <=? 102)%nat).

(** [strip_prefix p s]: what follows [p] in [s], when [s] starts with [p]. *)
Fixpoint strip_prefix (p s : string) : option string :=
  match p, s with
  | EmptyString, _ => Some s
  | String a p', String b s' =>
      if bool_decide (a = b) then strip_prefix p' s' else None
  | String _ _, EmptyString => None
  end.

(** [path.match(/^\/transfer\/([a-f0-9]+)$/)]: the identifier, or [None]. *)
Definition match_route (path : string) : option string :=
  match strip_prefix "/transfer/" path with
  | None => None
  | Some rest =>
      let m := Codes.span is_hex rest in
      match m.1, m.2 with
      | String _ _, EmptyString => Some m.1
      | _, _ => None
      end
  end.

Definition handlePut (id : string) (chunks : list (list byte)) (now : Z)
    (s : t) : Response * t :=
  let '(code, error, s') := Relay.handlePut id chunks now s in
  if bool_decide (code = 201)
  then (mkResponse 201 (JsonStored (length (concat chunks))), s')
  else (mkResponse code (JsonError error), s').

Definition handleGet (id : string) (s : t) : Response * t :=
  let '(code, data, s') := Relay.handleGet id s in
  if bool_decide (code = 404)
  then (mkResponse 404 (JsonError "Transfer not found or already retrieved"), s')
  else (mkResponse 200 (Bytes data), s').

Definition handleDelete (id : string) (s : t) : Response * t :=
  let '(deleted, s') := delete id s in
  if deleted then (mkResponse 200 JsonOk, s')
  else (mkResponse 404 (JsonError "Transfer not found"), s').

(** [handleRequest] from its third line on: [path] is the [pathname] that
    its first two lines read off the target of the request. *)
Definition handleRequest (method path : string) (chunks : list (list byte))
    (now : Z) (s : t) : Response * t :=
  if bool_decide (method = "OPTIONS"%string) then (mkResponse 204 NoBody, s)
  else if bool_decide (path = "/health"%string)
          && bool_decide (method = "GET"%string)
  then (mkResponse 200 (JsonHealth (count s)), s)
  else
    match match_route path with
    | None => (mkResponse 404 (JsonError "Not found"), s)
    | Some id =>
        if bool_decide (method = "PUT"%string) then handlePut id chunks now s
        else if bool_decide (method = "GET"%string) then handleGet id s
        else if bool_decide (method = "DELETE"%string) then handleDelete id s
        else (mkResponse 405 (JsonError "Method not allowed"), s)
    end.

(** [handleRequest(req, res)] whole, as the listener of [createServer]
    calls it.  Its first line parses [req.url ?? '/'] against [http://] and
    the [Host] header, [localhost] when there is none.
    [URL_pathname input base] is [new URL(input, base).pathname], or the
    [TypeError] that [new URL] throws for a target that does not parse;
    it is Node's, and a parameter here.  Nothing catches what it throws:
    the handler then answers nothing, and the error leaves the listener. *)
Section Listener.

Variable URL_pathname : string -> string -> result string.

Definition listener (method : string) (url host : option string)
    (chunks : list (list byte)) (now : Z) (s : t) : result (Response * t) :=
  path ← URL_pathname (default "/"%string url)
           ("http://" +:+ default "localhost"%string host);
  Ok (handleRequest method path chunks now s).

End Listener.

(** [stop()] destroys the store before the listener closes. *)
Definition stop (s : t) : t := destroy s.

End Server.

(** ** The command line ([wormhole/src/cli.ts]) *)

Module Cli.

(** [flags: Record<string, string>]: a key is absent until it is set. *)
Record Flags : Type := mkFlags {
  relay : option string;
  output : option string;
  code : option string;
}.

Definition startsWith_dash (a : string) : bool :=
  match a with
  | String "-" _ => true
  | _ => false
  end.

(** The loop of [parseFlags] from index [i] on: [args] is what is left from
    [args[i]], and [args[++i] ?? ''] takes the next argument when there is
    one. *)
Fixpoint parseFlags_from (args positional : list string) (flags : Flags)
    : list string * Flags :=
  match args with
  | [] => (positional, flags)
  | a :: rest =>
      if bool_decide (a = "--relay"%string) || bool_decide (a = "-r"%string)
      then
        match rest with
        | [] => (positional, mkFlags (Some EmptyString) (output flags) (code flags))
        | v :: rest' =>
            parseFlags_from rest' positional
              (mkFlags (Some v) (output flags) (code flags))
        end
      else if bool_decide (a = "--output"%string) || bool_decide (a = "-o"%string)
      then
        match rest with
        | [] => (positional, mkFlags (relay flags) (Some EmptyString) (code flags))
        | v :: rest' =>
            parseFlags_from rest' positional
              (mkFlags (relay flags) (Some v) (code flags))
        end
      else if bool_decide (a = "--code"%string) || bool_decide (a = "-c"%string)
      then
        match rest with
        | [] => (positional, mkFlags (relay flags) (output flags) (Some EmptyString))
        | v :: rest' =>
            parseFlags_from rest' positional
              (mkFlags (relay flags) (output flags) (Some v))
        end
      else if negb (startsWith_dash a)
      then parseFlags_from rest (positional ++ [a]) flags
      else parseFlags_from rest positional flags
  end.

Definition parseFlags (args : list string) : list string * Flags :=
  parseFlags_from args [] (mkFlags None None None).




End Cli.

(** ** Archives and file payloads ([wormhole/src/slurp.ts], [index.ts]) *)

Module Slurp.

(** A JavaScript string is the list of its UTF-16 code units; [lit] gives
    the code units of an ASCII literal. *)
Abbreviation JSString := (list N) (only parsing).

Definition lit (s : string) : JSString :=
  map N_of_ascii (list_ascii_of_string s).

Definition LF : N := 10.
Definition QUOTE : N := 39.

(** The class [\s]: the white space and the line terminators of
    ECMAScript, U+0009 to U+000D, U+0020, U+00A0, U+1680, U+2000 to U+200A,
    U+2028, U+2029, U+202F, U+205F, U+3000 and U+FEFF. *)
Definition is_space (c : N) : bool :=
  ((9 <=? c) && (c <=? 13) || (c =? 32) || (c =? 160) || (c =? 5760)
   || (8192 <=? c) && (c <=? 8202) || (c =? 8232) || (c =? 8233)
   || (c =? 8239) || (c =? 8287) || (c =? 12288) || (c =? 65279))%N.

(** The class [[^']]. *)
Definition not_quote (c : N) : bool := negb (c =? QUOTE)%N.

(** [span p s]: the longest prefix of [s] whose code units satisfy [p], and
    what follows it.  In the two expressions below every [\s+] and every
    [[^']+] is followed by a character outside its class, so the run a
    greedy match takes is the only one that can match. *)
Fixpoint span (p : N -> bool) (s : JSString) : JSString * JSString :=
  match s with
  | [] => ([], [])
  | c :: rest =>
      if p c then (c :: (span p rest).1, (span p rest).2) else ([], s)
  end.

(** [strip_prefix p s]: what follows [p] in [s], when [s] starts with [p]. *)
Fixpoint strip_prefix (p s : JSString) : option JSString :=
  match p, s with
  | [], _ => Some s
  | a :: p', b :: s' => if (a =? b)%N then strip_prefix p' s' else None
  | _ :: _, [] => None
  end.

(** [\s+]: at least one space; what follows the run. *)
Definition spaces (s : JSString) : option JSString :=
  let m := span is_space s in
  match m.1 with
  | [] => None
  | _ :: _ => Some m.2
  end.

(** ['([^']+)']: the text between the quotes and what follows. *)
Definition quoted (s : JSString) : option (JSString * JSString) :=
  match s with
  | c :: r =>
      if (c =? QUOTE)%N then
        let m := span not_quote r in
        match m.1, m.2 with
        | _ :: _, c' :: r' => if (c' =? QUOTE)%N then Some (m.1, r') else None
        | _, _ => None
        end
      else None
  | [] => None
  end.

(** [\s+>\s+'([^']+)'\s+<<\s+'([^']+)'$]: the common end of the two
    expressions of [parseV1Content]; the path and the marker. *)
Definition redirect (s : JSString) : option (JSString * JSString) :=
  s ← spaces s;
  s ← strip_prefix (lit ">") s;
  s ← spaces s;
  '(path, s) ← quoted s;
  s ← spaces s;
  s ← strip_prefix (lit "<<") s;
  s ← spaces s;
  '(marker, s) ← quoted s;
  match s with
  | [] => Some (path, marker)
  | _ :: _ => None
  end.

(** [line.match(/^cat\s+>\s+'([^']+)'\s+<<\s+'([^']+)'$/)] *)
Definition cat_header (line : JSString) : option (JSString * JSString) :=
  s ← strip_prefix (lit "cat") line;
  redirect s.

(** [line.match(/^base64\s+-d\s+>\s+'([^']+)'\s+<<\s+'([^']+)'$/)] *)
Definition base64_header (line : JSString) : option (JSString * JSString) :=
  s ← strip_prefix (lit "base64") line;
  s ← spaces s;
  s ← strip_prefix (lit "-d") s;
  redirect s.

(** [archive.split('\n')] *)
Fixpoint split_lines (s : JSString) : list JSString :=
  match s with
  | [] => [[]]
  | c :: rest =>
      if (c =? LF)%N then [] :: split_lines rest
      else
        match split_lines rest with
        | [] => [[c]]
        | l :: ls => (c :: l) :: ls
        end
  end.

(** [contentLines.join('\n')] *)
Fixpoint join_lines (ls : list JSString) : JSString :=
  match ls with
  | [] => []
  | [l] => l
  | l :: rest => l ++ LF :: join_lines rest
  end.

Record ParsedFile : Type := mkFile {
  path : JSString;
  content : JSString;
  binary : bool;
}.

(** The inner loop: the lines up to the first one that is the marker, and
    the lines after that marker (all consumed when there is none). *)
Fixpoint until_marker (marker : JSString) (lines : list JSString)
    : list JSString * list JSString :=
  match lines with
  | [] => ([], [])
  | l :: rest =>
      if bool_decide (l = marker) then ([], rest)
      else (l :: (until_marker marker rest).1, (until_marker marker rest).2)
  end.

(** The outer loop on the lines from index [i] on; every turn consumes at
    least one line, and [fuel] bounds the number of turns. *)
Fixpoint parse_lines (fuel : nat) (lines : list JSString) : list ParsedFile :=
  match fuel, lines with
  | O, _ => []
  | _, [] => []
  | S fuel', line :: rest =>
      match cat_header line with
      | Some (p, marker) =>
          let r := until_marker marker rest in
          mkFile p (join_lines r.1) false :: parse_lines fuel' r.2
      | None =>
          match base64_header line with
          | Some (p, marker) =>
              let r := until_marker marker rest in
              mkFile p (join_lines r.1) true :: parse_lines fuel' r.2
          | None => parse_lines fuel' rest
          end
      end
  end.

Definition parseV1Content (archive : JSString) : list ParsedFile :=
  let lines := split_lines archive in
  parse_lines (length lines) lines.

(** [includes]: [needle] occurs in [hay]. *)
Fixpoint starts_with (needle hay : list byte) : bool :=
  match needle, hay with
  | [], _ => true
  | a :: needle', b :: hay' => bool_decide (a = b) && starts_with needle' hay'
  | _ :: _, [] => false
  end.

Fixpoint includes (needle hay : list byte) : bool :=
  starts_with needle hay
  || match hay with
     | [] => false
     | _ :: hay' => includes needle hay'
     end.

(** The UTF-8 bytes of ['#!/bin/sh'] and ['SLURP']. *)
Definition SHEBANG : list byte := [x23; x21; x2f; x62; x69; x6e; x2f; x73; x68].
Definition SLURP : list byte := [x53; x4c; x55; x52; x50].

(** [isSlurpArchive(data)].  The source decodes the first 200 bytes as
    UTF-8 and searches the text; both needles are ASCII, an ASCII byte
    decodes to itself and every other byte to a character outside ASCII,
    so the text holds a needle exactly where the bytes do. *)
Definition isSlurpArchive (data : list byte) : bool :=
  let header := Crypto.subarray data 0 200 in
  includes SHEBANG header && includes SLURP header.

End Slurp.

(** [receive] from the decrypted payload on, and the payload [send] makes
    of a single file.  [JSON_name header] is the [name] that
    [JSON.parse] finds in the header text, and [extractArchive] the files
    an archive unpacks to; both are parameters.  [written] lists what
    [receive] itself hands to [writeFileSync]: the name, below the output
    directory, and the bytes. *)

Record ReceiveResult : Type := mkReceived {
  files : list string;
  type : string;
  totalSize : nat;
  written : list (string * list byte);
}.

Section Payload.

Variable JSON_name : list byte -> result string.
Variable extractArchive : list byte -> list string.

(** [payload.indexOf(0x0a)] *)
Fixpoint indexOf_LF (payload : list byte) : option nat :=
  match payload with
  | [] => None
  | b :: rest =>
      if bool_decide (b = x0a) then Some O
      else S <$> indexOf_LF rest
  end.

Definition unpack (payload : list byte) : result ReceiveResult :=
  if Slurp.isSlurpArchive payload then
    Ok (mkReceived (extractArchive payload) "directory" (length payload) [])
  else
    match indexOf_LF payload with
    | None => Throw "Invalid payload: no metadata header"
    | Some newlineIdx =>
        name ← JSON_name (Crypto.subarray payload 0 newlineIdx);
        let content := drop (newlineIdx + 1) payload in
        Ok (mkReceived [name] "file" (length content) [(name, content)])
    end.

(** The payload of a single file: [header_json] is the UTF-8 text of
    [JSON.stringify({ type: 'file', name, size })]. *)
Definition file_payload (header_json content : list byte) : list byte :=
  (header_json ++ [x0a]) ++ content.

End Payload.

(** * Properties of the store *)

Module StoreFacts.
Import TransferStore.

Implicit Types (s : t) (id : string) (now : Z).

(** [expired now ttl e]: the test of [cleanup] on one entry. *)
Definition expired (now ttl : Z) (e : TransferEntry) : Prop :=
  now - createdAt e > ttl.

(** The spec's notion of a live entry: present, and younger than the TTL. *)
Definition live (now : Z) (s : t) (id : string) : Prop :=
  exists e, entries s !! id = Some e /\ now - createdAt e < ttlMs s.

#[global] Instance expired_dec now ttl e : Decision (expired now ttl e).
Proof. unfold expired. apply _. Defined.

(** A store with a TTL of 10 ms holding one entry, put at time 0. *)
Definition one_entry_store : t :=
  (put "ab" [x68; x69] None 0
     (new (mkOptions None (Some 10) None))).2.

Lemma with_entries_entries s m : entries (with_entries s m) = m.
Proof. reflexivity. Qed.

Lemma get_result id s : (get id s).1 = entries s !! id.
Proof. unfold get. by destruct (entries s !! id). Qed.

Lemma get_entries id s : entries (get id s).2 = base.delete id (entries s).
Proof.
  unfold get. destruct (entries s !! id) eqn:E; simpl; [done|].
  by rewrite delete_id.
Qed.

Lemma get_absent id s : entries s !! id = None -> get id s = (None, s).
Proof. intros E. unfold get. by rewrite E. Qed.

Lemma put_small_fresh id d md now s :
  Z.of_nat (length d) <= maxSize s -> entries s !! id = None ->
  put id d md now s
  = (PutOk, with_entries s (<[id := mkEntry d now md]> (entries s))).
Proof.
  intros Hsz E. unfold put.
  rewrite bool_decide_eq_false_2 by lia.
  rewrite bool_decide_eq_false_2; [done|].
  rewrite E. by intros [? ?].
Qed.

(** The loop of [cleanup] over a list of entries, in the order a [for ... of]
    visits them. *)
Definition cleanup_loop (now ttl : Z) (l : list (string * TransferEntry))
    (acc : gmap string TransferEntry * nat) : gmap string TransferEntry * nat :=
  fold_left (fun a kv => uncurry (cleanup_step now ttl) kv a) l acc.

Lemma cleanup_step_lookup now ttl k e (acc : gmap string TransferEntry * nat) j :
  (cleanup_step now ttl k e acc).1 !! j
  = if bool_decide (k = j /\ expired now ttl e) then None else acc.1 !! j.
Proof.
  unfold cleanup_step, expired.
  destruct (bool_decide (now - createdAt e > ttl)) eqn:X; simpl.
  - apply bool_decide_eq_true_1 in X.
    destruct (decide (k = j)) as [->|Hne].
    + rewrite bool_decide_eq_true_2 by done. apply lookup_delete_eq.
    + rewrite bool_decide_eq_false_2 by (intros [? ?]; done).
      by apply lookup_delete_ne.
  - apply bool_decide_eq_false_1 in X.
    by rewrite bool_decide_eq_false_2 by (intros [? ?]; done).
Qed.

Lemma cleanup_step_count now ttl k e (acc : gmap string TransferEntry * nat) :
  (cleanup_step now ttl k e acc).2
  = (acc.2 + if bool_decide (expired now ttl e) then 1 else 0)%nat.
Proof.
  unfold cleanup_step, expired.
  destruct (bool_decide (now - createdAt e > ttl)); simpl; lia.
Qed.

Lemma cleanup_loop_lookup now ttl l (acc : gmap string TransferEntry * nat) j :
  (cleanup_loop now ttl l acc).1 !! j
  = if bool_decide (Exists (fun kv => kv.1 = j /\ expired now ttl kv.2) l)
    then None else acc.1 !! j.
Proof.
  revert acc. induction l as [|[k e] l IH]; intros acc.
  - rewrite bool_decide_eq_false_2; [done|]. by intros ?%Exists_nil.
  - change (cleanup_loop now ttl ((k, e) :: l) acc)
      with (cleanup_loop now ttl l (cleanup_step now ttl k e acc)).
    rewrite IH, cleanup_step_lookup.
    destruct (decide (Exists (fun kv => kv.1 = j /\ expired now ttl kv.2) l))
      as [Hl|Hl].
    + rewrite !bool_decide_eq_true_2; [done| |done]. by apply Exists_cons_tl.
    + rewrite (bool_decide_eq_false_2 _ Hl).
      destruct (decide (k = j /\ expired now ttl e)) as [Hk|Hk].
      * rewrite !bool_decide_eq_true_2; [done| |done]. by apply Exists_cons_hd.
      * rewrite !bool_decide_eq_false_2; [done| |done].
        intros [?|?]%Exists_cons; done.
Qed.

Lemma cleanup_loop_count now ttl l (acc : gmap string TransferEntry * nat) :
  (cleanup_loop now ttl l acc).2
  = (acc.2 + length (filter (fun kv => expired now ttl kv.2) l))%nat.
Proof.
  revert acc. induction l as [|[k e] l IH]; intros acc.
  - unfold cleanup_loop. simpl. lia.
  - change (cleanup_loop now ttl ((k, e) :: l) acc)
      with (cleanup_loop now ttl l (cleanup_step now ttl k e acc)).
    rewrite IH, cleanup_step_count, filter_cons. simpl.
    destruct (decide (expired now ttl e)) as [He|He].
    + rewrite bool_decide_eq_true_2 by done. simpl. lia.
    + rewrite bool_decide_eq_false_2 by done. lia.
Qed.

Lemma size_filter_map_to_list (P : string * TransferEntry -> Prop)
    `{!forall kv, Decision (P kv)} (m : gmap string TransferEntry) :
  size (filter P m) = length (filter P (map_to_list m)).
Proof.
  induction m as [|i x m Hi IH] using map_ind.
  - by rewrite map_filter_empty, map_to_list_empty, map_size_empty.
  - rewrite (map_to_list_insert m i x Hi), filter_cons.
    destruct (decide (P (i, x))) as [HP|HP].
    + rewrite map_filter_insert_True by done.
      rewrite map_size_insert_None; [simpl; by rewrite IH|].
      apply map_lookup_filter_None; by left.
    + rewrite map_filter_insert_False by done.
      by rewrite delete_id.
Qed.

(** Whatever the order in which the loop of [cleanup] visits the entries,
    it ends with the entries that are not expired and the number of those
    that were. *)
Lemma cleanup_loop_any_order now ttl (m : gmap string TransferEntry) l :
  l ≡ₚ map_to_list m ->
  cleanup_loop now ttl l (m, 0%nat)
  = (filter (fun kv => ~ expired now ttl kv.2) m,
     size (filter (fun kv => expired now ttl kv.2) m)).
Proof.
  intros Hl.
  rewrite (surjective_pairing (cleanup_loop now ttl l (m, 0%nat))). f_equal.
  - apply map_eq. intros j. rewrite cleanup_loop_lookup. simpl.
    destruct (m !! j) as [e|] eqn:E.
    + destruct (decide (expired now ttl e)) as [He|He].
      * rewrite bool_decide_eq_true_2.
        { symmetry. apply map_lookup_filter_None. right.
          intros x Hx. simpl. intros Hn. apply Hn. congruence. }
        apply Exists_exists. exists (j, e). split; [|done].
        rewrite Hl. by apply elem_of_map_to_list.
      * rewrite bool_decide_eq_false_2.
        { symmetry. by apply map_lookup_filter_Some. }
        intros ([k e'] & Hin & Hk & He')%Exists_exists. simpl in *. subst k.
        rewrite Hl in Hin. apply elem_of_map_to_list in Hin. congruence.
    + rewrite bool_decide_eq_false_2.
      { symmetry. apply map_lookup_filter_None. by left. }
      intros ([k e'] & Hin & Hk & He')%Exists_exists. simpl in *. subst k.
      rewrite Hl in Hin. apply elem_of_map_to_list in Hin. congruence.
  - rewrite cleanup_loop_count, size_filter_map_to_list. simpl.
    by rewrite Hl.
Qed.

Lemma cleanup_as_loop now s :
  cleanup now s
  = let r := cleanup_loop now (ttlMs s) (rev (map_to_list (entries s)))
               (entries s, 0%nat) in
    (r.2, with_entries s r.1).
Proof.
  unfold cleanup, cleanup_loop.
  by rewrite map_fold_foldr, <- fold_left_rev_right, rev_involutive.
Qed.

Lemma cleanup_filter now s :
  cleanup now s
  = (size (filter (fun kv => expired now (ttlMs s) kv.2) (entries s)),
     with_entries s (filter (fun kv => ~ expired now (ttlMs s) kv.2) (entries s))).
Proof.
  rewrite cleanup_as_loop. simpl.
  rewrite cleanup_loop_any_order; [done|]. symmetry. apply Permutation_rev.
Qed.

Lemma size_filter_split (P : string * TransferEntry -> Prop)
    `{!forall kv, Decision (P kv)} (m : gmap string TransferEntry) :
  size m = (size (filter P m) + size (filter (fun kv => ~ P kv) m))%nat.
Proof.
  rewrite <- map_size_disj_union by apply map_disjoint_filter_complement.
  by rewrite map_filter_union_complement.
Qed.

Lemma one_entry_store_lookup :
  entries one_entry_store !! "ab"%string = Some (mkEntry [x68; x69] 0 None).
Proof. vm_compute. reflexivity. Qed.

(** *** Reading: [get]

    C1, as the spec states it, fails: [get] hands out an entry that is
    1000 ms old from a store whose TTL is 10 ms, when no sweep has run
    since the entry was put. *)
Lemma get_returns_expired_entry :
  let e := mkEntry [x68; x69] 0 None in
  entries one_entry_store !! "ab"%string = Some e
  /\ ttlMs one_entry_store = 10
  /\ 1000 - createdAt e >= ttlMs one_entry_store
  /\ (get "ab" one_entry_store).1 = Some e.
Proof.
  cbv zeta. rewrite get_result, one_entry_store_lookup.
  split; [done|]. split; [reflexivity|]. split; [|done].
  change (ttlMs one_entry_store) with 10. simpl. lia.
Qed.

(** C1, amended: [get] never looks at the age of an entry.  It returns the
    entry stored under [id] whenever the map holds one, however old; an
    entry older than the TTL is absent for [get] once [cleanup] has run
    (at a time [now] at which its age exceeded the TTL), and an entry
    that [cleanup] found within the TTL is still returned. *)
Theorem get_expiry_needs_cleanup id s now :
  (get id s).1 = entries s !! id
  /\ (forall e, entries s !! id = Some e -> now - createdAt e > ttlMs s ->
        (get id (cleanup now s).2).1 = None)
  /\ (forall e, entries s !! id = Some e -> now - createdAt e <= ttlMs s ->
        (get id (cleanup now s).2).1 = Some e).
Proof.
  split; [apply get_result|].
  rewrite get_result, cleanup_filter. simpl. split; intros e E Hage.
  - apply map_lookup_filter_None. right. intros x Hx Hn. simpl in Hn.
    apply Hn. unfold expired. congruence.
  - apply map_lookup_filter_Some. split; [done|]. simpl. unfold expired. lia.
Qed.

(** C2: a successful [get] removes the entry it returns.  Right after it,
    [get] answers absent and [has] answers false; every operation on [id]
    answers as it does on any store of the same size limit that never held
    [id]; and a [put] under [id] of a payload within the size limit is
    accepted and stores the new entry. *)
Theorem get_is_destructive id s e s' :
  get id s = (Some e, s') ->
  entries s !! id = Some e
  /\ s' = with_entries s (base.delete id (entries s))
  /\ get id s' = (None, s')
  /\ has id s' = false
  /\ (forall u, entries u !! id = None -> maxSize u = maxSize s' ->
        (get id s').1 = (get id u).1
        /\ has id s' = has id u
        /\ (delete id s').1 = (delete id u).1
        /\ forall d md now, (put id d md now s').1 = (put id d md now u).1)
  /\ (forall d md now, Z.of_nat (length d) <= maxSize s' ->
        put id d md now s'
        = (PutOk, with_entries s' (<[id := mkEntry d now md]> (entries s')))).
Proof.
  unfold get at 1. destruct (entries s !! id) as [e0|] eqn:E; [|done].
  intros [= -> <-].
  assert (Hgone : entries (with_entries s (base.delete id (entries s))) !! id
                  = None) by apply lookup_delete_eq.
  split; [done|]. split; [done|]. split; [by apply get_absent|].
  split.
  { unfold has. rewrite Hgone. apply bool_decide_eq_false_2. by intros [? ?]. }
  split.
  - intros u Hu Hmax. split; [by rewrite !get_result, Hgone, Hu|].
    split; [unfold has; by rewrite Hgone, Hu|].
    split; [unfold delete; simpl; by rewrite lookup_delete_eq, Hu|].
    intros d md now. unfold put. rewrite <- Hmax, Hgone, Hu.
    by destruct (bool_decide (Z.of_nat (length d) > maxSize u)).
  - intros d md now Hsz. by apply put_small_fresh.
Qed.

Lemma get_is_destructive_witness :
  get "ab" one_entry_store
  = (Some (mkEntry [x68; x69] 0 None),
     with_entries one_entry_store (base.delete "ab"%string (entries one_entry_store)))
  /\ has "ab" (get "ab" one_entry_store).2 = false.
Proof.
  assert (G : get "ab" one_entry_store
    = (Some (mkEntry [x68; x69] 0 None),
       with_entries one_entry_store
         (base.delete "ab"%string (entries one_entry_store)))).
  { unfold get. by rewrite one_entry_store_lookup. }
  split; [exact G|].
  rewrite G. exact (proj1 (proj2 (proj2 (proj2 (get_is_destructive _ _ _ _ G))))).
Defined.

(** *** Writing: [put]

    C5, as the spec states it, fails: a [put] of a payload within the size
    limit is rejected as a duplicate although no live entry exists for the
    identifier; the entry in the way is 1000 ms old in a store whose TTL is
    10 ms, and no sweep has removed it. *)
Lemma put_rejects_expired_duplicate :
  ~ live 1000 one_entry_store "ab"
  /\ Z.of_nat (length [x00]) <= maxSize one_entry_store
  /\ put "ab" [x00] None 1000 one_entry_store
     = (PutError "Transfer ID already exists", one_entry_store).
Proof.
  split; [|split].
  - intros (e & E & Hage). rewrite one_entry_store_lookup in E.
    injection E as <-. change (ttlMs one_entry_store) with 10 in Hage.
    simpl in Hage. lia.
  - change (maxSize one_entry_store) with 1048576. simpl. lia.
  - unfold put. change (maxSize one_entry_store) with 1048576.
    rewrite bool_decide_eq_false_2 by (simpl; lia).
    rewrite bool_decide_eq_true_2; [done|].
    rewrite one_entry_store_lookup. by eexists.
Qed.

(** C5, amended: [put] is rejected with the "too large" message exactly
    when the payload is longer than [maxSize]; it is rejected with the
    "already exists" message exactly when the payload is within [maxSize]
    and the map holds an entry for the identifier, whatever that entry's
    age; otherwise it stores the payload with the current timestamp and
    answers ok.  A rejected [put] leaves the store as it was, so that an
    existing entry is never overwritten. *)
Theorem put_spec id d md now s :
  let r := put id d md now s in
  (r.1 = PutError ("Payload too large: " +:+ pretty (length d)
                   +:+ " bytes (max " +:+ pretty (maxSize s) +:+ ")")
     <-> Z.of_nat (length d) > maxSize s)
  /\ (r.1 = PutError "Transfer ID already exists"
     <-> Z.of_nat (length d) <= maxSize s /\ is_Some (entries s !! id))
  /\ (r.1 = PutOk
     <-> Z.of_nat (length d) <= maxSize s /\ entries s !! id = None)
  /\ (r.1 = PutOk ->
     r.2 = with_entries s (<[id := mkEntry d now md]> (entries s)))
  /\ (r.1 <> PutOk -> r.2 = s)
  /\ (forall e, entries s !! id = Some e -> entries r.2 !! id = Some e).
Proof.
  unfold put.
  destruct (decide (Z.of_nat (length d) > maxSize s)) as [Hbig|Hsmall].
  { rewrite bool_decide_eq_true_2 by done. cbv zeta. simpl fst. simpl snd.
    split; [done|]. split; [split; [done|intros [? _]; lia]|].
    split; [split; [done|intros [? _]; lia]|].
    split; [done|]. split; [done|]. intros e He; congruence. }
  rewrite bool_decide_eq_false_2 by done.
  destruct (entries s !! id) as [e0|] eqn:E.
  - rewrite bool_decide_eq_true_2 by by eexists. cbv zeta. simpl fst. simpl snd.
    split; [split; [done|intros ?; lia]|].
    split; [split; [intros _; split; [lia|by eexists]|done]|].
    split; [split; [done|intros [_ ?]; done]|].
    split; [done|]. split; [done|]. intros e He; congruence.
  - rewrite bool_decide_eq_false_2 by (by intros [? ?]).
    cbv zeta. simpl fst. simpl snd.
    split; [split; [done|intros ?; lia]|].
    split; [split; [done|intros [_ [? ?]]; done]|].
    split; [split; [intros _; split; [lia|done]|done]|].
    split; [done|]. split; [done|]. intros e He; congruence.
Qed.

(** *** Sweeping: [cleanup]

    C6, as the spec states it, fails at the boundary: an entry whose age
    equals the TTL survives the sweep, which reports no removal. *)
Lemma cleanup_keeps_entry_at_ttl :
  let e := mkEntry [x68; x69] 0 None in
  entries one_entry_store !! "ab"%string = Some e
  /\ 10 - createdAt e >= ttlMs one_entry_store
  /\ (cleanup 10 one_entry_store).1 = 0%nat
  /\ entries (cleanup 10 one_entry_store).2 !! "ab"%string = Some e.
Proof.
  cbv zeta. split; [apply one_entry_store_lookup|].
  split; [change (ttlMs one_entry_store) with 10; simpl; lia|].
  split; vm_compute; reflexivity.
Qed.

(** C6, amended: [cleanup] removes exactly the entries whose age is
    strictly greater than the TTL (an entry whose age is at most the TTL
    stays, unchanged), returns the number of entries it removed, and
    leaves the limits of the store alone. *)
Theorem cleanup_spec now s :
  let r := cleanup now s in
  (forall id e, entries r.2 !! id = Some e
      <-> entries s !! id = Some e /\ now - createdAt e <= ttlMs s)
  /\ (forall id, entries r.2 !! id = None
      <-> entries s !! id = None
          \/ exists e, entries s !! id = Some e /\ now - createdAt e > ttlMs s)
  /\ r.1 = size (filter (fun kv => now - createdAt kv.2 > ttlMs s) (entries s))
  /\ count s = (r.1 + count r.2)%nat
  /\ maxSize r.2 = maxSize s /\ ttlMs r.2 = ttlMs s.
Proof.
  rewrite cleanup_filter. cbv zeta. simpl fst. simpl snd.
  rewrite with_entries_entries.
  split.
  { intros id e. rewrite map_lookup_filter_Some. simpl. unfold expired.
    split; intros [? ?]; (split; [done|lia]). }
  split.
  { intros id. rewrite map_lookup_filter_None. simpl. unfold expired. split.
    - intros [E|Hx]; [by left|].
      destruct (entries s !! id) as [e|] eqn:E; [right|by left].
      exists e. split; [done|]. specialize (Hx e eq_refl). lia.
    - intros [E|(e & E & Hage)]; [by left|right].
      intros x Hx Hn. apply Hn. congruence. }
  split; [done|]. split; [|done].
  unfold count. rewrite with_entries_entries.
  apply (size_filter_split (fun kv => expired now (ttlMs s) kv.2)).
Qed.

(** *** Further facts *)

(** The loop of [cleanup] may visit the entries in any order: the result
    is that of [cleanup]. *)
Theorem cleanup_order_irrelevant now s (l : list (string * TransferEntry)) :
  l ≡ₚ map_to_list (entries s) ->
  (let r := cleanup_loop now (ttlMs s) l (entries s, 0%nat) in
   (r.2, with_entries s r.1))
  = cleanup now s.
Proof.
  intros Hl. cbv zeta. rewrite cleanup_filter.
  by rewrite (cleanup_loop_any_order now (ttlMs s) (entries s) l Hl).
Qed.

(** A store with a TTL of 10 ms holding three entries, put at the times
    0, 5 and 15. *)
Definition three_entry_store : t :=
  (put "ef" [x03] None 15
     (put "cd" [x02] None 5
        (put "ab" [x01] None 0 (new (mkOptions None (Some 10) None))).2).2).2.

(** At time 20 the entries [ab] and [cd] have expired.  The loop visits the
    entries in the order they were put, and in the opposite order; neither
    is the order of [map_to_list], which is [cd], [ef], [ab]. *)
Lemma cleanup_order_irrelevant_witness :
  (let r := cleanup_loop 20 10
              [("ab"%string, mkEntry [x01] 0 None);
               ("cd"%string, mkEntry [x02] 5 None);
               ("ef"%string, mkEntry [x03] 15 None)]
              (entries three_entry_store, 0%nat) in
   (r.2, with_entries three_entry_store r.1))
  = cleanup 20 three_entry_store
  /\ (let r := cleanup_loop 20 10
                 [("ef"%string, mkEntry [x03] 15 None);
                  ("cd"%string, mkEntry [x02] 5 None);
                  ("ab"%string, mkEntry [x01] 0 None)]
                 (entries three_entry_store, 0%nat) in
      (r.2, with_entries three_entry_store r.1))
     = cleanup 20 three_entry_store.
Proof.
  split.
  - apply (cleanup_order_irrelevant 20 three_entry_store
             [("ab"%string, mkEntry [x01] 0 None);
              ("cd"%string, mkEntry [x02] 5 None);
              ("ef"%string, mkEntry [x03] 15 None)]).
    vm_compute. etrans; [apply perm_swap|]. apply perm_skip, perm_swap.
  - apply (cleanup_order_irrelevant 20 three_entry_store
             [("ef"%string, mkEntry [x03] 15 None);
              ("cd"%string, mkEntry [x02] 5 None);
              ("ab"%string, mkEntry [x01] 0 None)]).
    vm_compute. apply perm_swap.
Defined.

(** [get_many n id s]: [n] calls of [get(id)], one after the other. *)
Fixpoint get_many (n : nat) (id : string) (s : t)
    : list (option TransferEntry) * t :=
  match n with
  | O => ([], s)
  | S m =>
      let r := get id s in
      let rs := get_many m id r.2 in
      (r.1 :: rs.1, rs.2)
  end.

Lemma get_many_absent n id s :
  entries s !! id = None -> get_many n id s = (repeat None n, s).
Proof.
  intros E. induction n as [|n IH]; simpl; [done|].
  rewrite (get_absent id s E). simpl. by rewrite IH.
Qed.

(** Of any number of calls of [get(id)] made one after the other on a
    store that holds an entry for [id], the first returns the entry and
    every later one returns absent. *)
Theorem get_many_once n id s e :
  entries s !! id = Some e ->
  (get_many (S n) id s).1 = Some e :: repeat None n.
Proof.
  intros E. cbn [get_many fst]. rewrite get_result, E. f_equal.
  rewrite get_many_absent; [done|].
  rewrite get_entries. apply lookup_delete_eq.
Qed.

Lemma get_many_once_witness :
  (get_many 3 "ab" one_entry_store).1
  = [Some (mkEntry [x68; x69] 0 None); None; None].
Proof.
  exact (get_many_once 2 "ab" one_entry_store _ one_entry_store_lookup).
Defined.

End StoreFacts.

(** * Properties of the transfer codes *)

Module CodesFacts.
Import Codes.

Implicit Types (s code d : string) (p : ascii -> bool).

Fixpoint all_chars (p : ascii -> bool) (s : string) : bool :=
  match s with
  | EmptyString => true
  | String c rest => p c && all_chars p rest
  end.

(** What it means for [code] to match [^(\d+)-([a-z]+)-([a-z]+)$] with the
    groups [d], [w1] and [w2]. *)
Definition matches_code_pattern (code d w1 w2 : string) : Prop :=
  code = d +:+ "-" +:+ w1 +:+ "-" +:+ w2
  /\ d <> EmptyString /\ all_chars is_digit d = true
  /\ w1 <> EmptyString /\ all_chars is_lower w1 = true
  /\ w2 <> EmptyString /\ all_chars is_lower w2 = true.

(** The number a run of decimal digits denotes. *)
Fixpoint decimal_value (s : string) : Z :=
  match s with
  | EmptyString => 0
  | String c rest =>
      digit_value c * 10 ^ Z.of_nat (String.length rest) + decimal_value rest
  end.

(** The format of the spec: [^\d{1,3}-[a-z]+-[a-z]+$], the number within
    1 .. 999. *)
Definition spec_accepts (code : string) : Prop :=
  exists d w1 w2,
    matches_code_pattern code d w1 w2
    /\ (String.length d <= 3)%nat /\ 1 <= decimal_value d <= 999.

Lemma append_cons c s t : String c s +:+ t = String c (s +:+ t).
Proof. reflexivity. Qed.

Lemma append_nil_l s : EmptyString +:+ s = s.
Proof. reflexivity. Qed.

Lemma append_nil_r s : s +:+ EmptyString = s.
Proof. induction s as [|c s IH]; [done|]. by rewrite append_cons, IH. Qed.

Lemma span_append p s : (span p s).1 +:+ (span p s).2 = s.
Proof.
  induction s as [|c s IH]; simpl; [done|].
  destruct (p c); simpl; [by rewrite append_cons, IH | done].
Qed.

Lemma span_all p s : all_chars p (span p s).1 = true.
Proof.
  induction s as [|c s IH]; simpl; [done|].
  destruct (p c) eqn:E; simpl; [by rewrite E, IH | done].
Qed.

Lemma span_stop p s c rest : (span p s).2 = String c rest -> p c = false.
Proof.
  induction s as [|c' s IH]; simpl; [done|].
  destruct (p c') eqn:E; simpl; [done|]. by intros [= <- _].
Qed.

Lemma span_unique p a b :
  all_chars p a = true ->
  (forall c rest, b = String c rest -> p c = false) ->
  span p (a +:+ b) = (a, b).
Proof.
  intros Ha Hb. induction a as [|c a IH]; simpl in *.
  - rewrite ?append_nil_l. destruct b as [|c rest]; simpl; [done|].
    by rewrite (Hb c rest eq_refl).
  - apply andb_true_iff in Ha as [Hc Ha].
    rewrite ?append_cons. simpl. rewrite Hc, (IH Ha). done.
Qed.

Lemma parseInt_from_digits acc s :
  all_chars is_digit s = true ->
  parseInt_from acc s
  = acc * 10 ^ Z.of_nat (String.length s) + decimal_value s.
Proof.
  revert acc. induction s as [|c s IH]; intros acc Hs; simpl in *.
  - lia.
  - apply andb_true_iff in Hs as [Hc Hs]. rewrite Hc, (IH _ Hs).
    rewrite Nat2Z.inj_succ, Z.pow_succ_r by lia. lia.
Qed.

Lemma parseInt10_digits s :
  all_chars is_digit s = true -> parseInt10 s = decimal_value s.
Proof. intros Hs. unfold parseInt10. rewrite parseInt_from_digits by done. lia. Qed.

Lemma match_code_iff code d (w1 w2 : string) :
  match_code code = Some (d, w1, w2) <-> matches_code_pattern code d w1 w2.
Proof.
  unfold match_code, matches_code_pattern. split.
  - pose proof (span_append is_digit code) as A1.
    pose proof (span_all is_digit code) as D1.
    destruct (span is_digit code) as [g1 r1]. simpl in *.
    destruct g1 as [|c1 g1]; [done|].
    destruct r1 as [|h1 r1]; [done|].
    destruct (decide (h1 = "-"%char)) as [->|Hne];
      [|by destruct h1 as [[] [] [] [] [] [] [] []]].
    pose proof (span_append is_lower r1) as A2.
    pose proof (span_all is_lower r1) as D2.
    destruct (span is_lower r1) as [g2 r2]. simpl in *.
    destruct g2 as [|c2 g2]; [done|].
    destruct r2 as [|h2 r2]; [done|].
    destruct (decide (h2 = "-"%char)) as [->|Hne];
      [|by destruct h2 as [[] [] [] [] [] [] [] []]].
    pose proof (span_append is_lower r2) as A3.
    pose proof (span_all is_lower r2) as D3.
    destruct (span is_lower r2) as [g3 r3]. simpl in *.
    destruct g3 as [|c3 g3]; [done|].
    destruct r3 as [|h3 r3]; [|done].
    intros [= <- <- <-].
    repeat split; try done.
    rewrite <- A1, <- A2, <- A3, append_nil_r.
    by rewrite !append_cons, !append_nil_l.
  - intros (-> & Hd & Dd & Hw1 & Dw1 & Hw2 & Dw2).
    change (d +:+ "-" +:+ w1 +:+ "-" +:+ w2)
      with (d +:+ String "-" (w1 +:+ String "-" w2)).
    rewrite (span_unique is_digit d (String "-" (w1 +:+ String "-" w2)))
      by (done || by intros ? ? [= <- _]).
    cbn [fst snd]. destruct d as [|c1 d]; [done|].
    rewrite (span_unique is_lower w1 (String "-" w2))
      by (done || by intros ? ? [= <- _]).
    cbn [fst snd]. destruct w1 as [|c2 w1]; [done|].
    pose proof (span_unique is_lower w2 EmptyString Dw2) as S3.
    rewrite append_nil_r in S3. rewrite S3 by done.
    cbn [fst snd]. by destruct w2.
Qed.

Lemma parseCode_iff code (r : ParsedCode) :
  parseCode code = Some r
  <-> exists d, matches_code_pattern code d (word1 r) (word2 r)
        /\ number r = decimal_value d /\ 1 <= number r <= 999.
Proof.
  unfold parseCode. split.
  - destruct (match_code code) as [[[g1 g2] g3]|] eqn:M; [|done].
    apply match_code_iff in M.
    destruct (bool_decide (parseInt10 g1 < 1)) eqn:Lo; [done|].
    destruct (bool_decide (parseInt10 g1 > 999)) eqn:Hi; [done|].
    simpl. intros [= <-]. simpl.
    apply bool_decide_eq_false_1 in Lo. apply bool_decide_eq_false_1 in Hi.
    exists g1. split; [done|].
    rewrite <- parseInt10_digits by apply M. lia.
  - intros (d & M & Hn & Hr). pose proof M as M'.
    apply match_code_iff in M. rewrite M.
    rewrite parseInt10_digits by apply M'. rewrite <- Hn.
    rewrite !bool_decide_eq_false_2 by lia. simpl. by destruct r.
Qed.

Lemma isValidCode_iff code :
  isValidCode code = true
  <-> exists d (w1 w2 : string),
        matches_code_pattern code d w1 w2 /\ 1 <= decimal_value d <= 999.
Proof.
  unfold isValidCode. rewrite bool_decide_eq_true. split.
  - destruct (parseCode code) as [r|] eqn:P; [|done]. intros _.
    apply parseCode_iff in P as (d & M & Hn & Hr).
    exists d, (word1 r), (word2 r). split; [done|lia].
  - intros (d & w1 & w2 & M & Hr).
    assert (P : parseCode code = Some (mkParsed (decimal_value d) w1 w2)).
    { apply parseCode_iff. exists d. simpl. done. }
    by rewrite P.
Qed.

Lemma digit_value_range c : is_digit c = true -> 0 <= digit_value c <= 9.
Proof.
  unfold is_digit, digit_value. intros [H1 H2]%andb_true_iff.
  apply Nat.leb_le in H1. apply Nat.leb_le in H2. lia.
Qed.

Lemma digit_value_zero c :
  is_digit c = true -> digit_value c = 0 -> c = "0"%char.
Proof.
  unfold is_digit, digit_value. intros _ Hz.
  rewrite <- (ascii_nat_embedding c).
  replace (nat_of_ascii c) with 48%nat by lia. reflexivity.
Qed.

Lemma decimal_value_nonneg s : all_chars is_digit s = true -> 0 <= decimal_value s.
Proof.
  induction s as [|c s IH]; simpl; [lia|].
  intros [Hc Hs]%andb_true_iff. pose proof (digit_value_range c Hc).
  specialize (IH Hs).
  assert (0 < 10 ^ Z.of_nat (String.length s)) by (apply Z.pow_pos_nonneg; lia).
  nia.
Qed.

(** A run of more than three digits whose value is below 1000 starts with
    a zero. *)
Lemma long_small_number_starts_with_zero d :
  all_chars is_digit d = true -> (3 < String.length d)%nat ->
  decimal_value d <= 999 -> exists rest, d = String "0" rest.
Proof.
  destruct d as [|c d]; simpl; [lia|].
  intros [Hc Hd]%andb_true_iff Hlen Hv.
  pose proof (digit_value_range c Hc) as Hr.
  pose proof (decimal_value_nonneg d Hd) as Hn.
  destruct (decide (digit_value c = 0)) as [Hz|Hz].
  { exists d. by rewrite (digit_value_zero c Hc Hz). }
  exfalso.
  assert (10 ^ 3 <= 10 ^ Z.of_nat (String.length d))
    by (apply Z.pow_le_mono_r; lia).
  nia.
Qed.

(** *** [parseCode]

    C7, as the spec states it, fails: the expression in the code is [\d+],
    not [\d{1,3}], so that a number written with leading zeros on more
    than three digits is accepted. *)
Lemma parseCode_accepts_leading_zeros :
  parseCode "0001-a-b" = Some (mkParsed 1 "a" "b")
  /\ ~ spec_accepts "0001-a-b".
Proof.
  split; [vm_compute; reflexivity|].
  intros (d & w1 & w2 & M & Hlen & _).
  apply match_code_iff in M. vm_compute in M.
  injection M as <- _ _. simpl in Hlen. lia.
Qed.

(** C7, amended: [parseCode] is a function (it has no effect and answers on
    every string, with [None] as its failure marker); it accepts a string
    exactly when the string matches [^\d+-[a-z]+-[a-z]+$] and the decimal
    value of its digits lies in 1 .. 999, and then returns that value and
    the two words.  Every string of the narrower format
    [^\d{1,3}-[a-z]+-[a-z]+$] with its number in 1 .. 999 is accepted, and
    an accepted string outside that format has more than three digits, the
    first of them a zero.  The strings the spec lists are rejected and
    accepted as it says. *)
Theorem parseCode_spec :
  (forall code r,
      parseCode code = Some r
      <-> exists d, matches_code_pattern code d (word1 r) (word2 r)
            /\ number r = decimal_value d /\ 1 <= number r <= 999)
  /\ (forall code, spec_accepts code -> exists r, parseCode code = Some r)
  /\ (forall code r, parseCode code = Some r -> ~ spec_accepts code ->
        exists d, matches_code_pattern code (String "0" d) (word1 r) (word2 r)
          /\ (3 <= String.length d)%nat)
  /\ parseCode "0-a-b" = None
  /\ parseCode "1000-a-b" = None
  /\ parseCode "abc-a-b" = None
  /\ parseCode "1-onlyone" = None
  /\ parseCode "" = None
  /\ parseCode "1-alpha-beta" = Some (mkParsed 1 "alpha" "beta")
  /\ parseCode "999-zoo-ark" = Some (mkParsed 999 "zoo" "ark").
Proof.
  split; [apply parseCode_iff|]. split; [|split].
  - intros code (d & w1 & w2 & M & _ & Hr).
    exists (mkParsed (decimal_value d) w1 w2).
    apply parseCode_iff. exists d. simpl. done.
  - intros code r P Hn. apply parseCode_iff in P as (d & M & Hv & Hr).
    destruct (decide (String.length d <= 3)%nat) as [Hlen|Hlen].
    { exfalso. apply Hn. exists d, (word1 r), (word2 r).
      split; [done|]. split; [done|lia]. }
    destruct (long_small_number_starts_with_zero d) as [rest ->];
      [apply M | lia | lia |].
    exists rest. split; [done|]. simpl in Hlen. lia.
  - repeat split; vm_compute; reflexivity.
Qed.

(** *** [isValidCode]

    C8, as the spec states it, fails: the check that [receive] applies
    accepts a code whose two words are equal and are not in the word
    list. *)
Lemma isValidCode_ignores_dictionary :
  isValidCode "1-alpha-alpha" = true
  /\ parseCode "1-alpha-alpha" = Some (mkParsed 1 "alpha" "alpha")
  /\ "alpha"%string ∉ WORDS.
Proof.
  split; [vm_compute; reflexivity|]. split; [vm_compute; reflexivity|].
  apply (bool_decide_eq_false_1 ("alpha"%string ∈ WORDS)).
  vm_compute. reflexivity.
Qed.

(** *** [generateCode] *)

Definition well_rendered (n : Z) : bool :=
  all_chars is_digit (pretty n)
  && bool_decide (decimal_value (pretty n) = n)
  && match pretty n with
     | EmptyString => false
     | String c _ => negb (bool_decide (c = "0"%char))
     end.

Definition word_ok (w : string) : bool :=
  all_chars is_lower w && negb (bool_decide (w = EmptyString)).

Lemma numbers_well_rendered n : 1 <= n <= 999 -> well_rendered n = true.
Proof.
  intros Hn.
  assert (H : forallb well_rendered (seqZ 1 999) = true)
    by (vm_compute; reflexivity).
  rewrite forallb_forall in H. apply H.
  apply list_elem_of_In, elem_of_seqZ. lia.
Qed.

Lemma WORDS_ok w : w ∈ WORDS -> word_ok w = true.
Proof.
  intros Hw.
  assert (H : forallb word_ok WORDS = true) by (vm_compute; reflexivity).
  rewrite forallb_forall in H. by apply H, list_elem_of_In.
Qed.

Lemma WORDS_length : length WORDS = 500%nat.
Proof. reflexivity. Qed.

Lemma WORDS_NoDup : NoDup WORDS.
Proof. apply (bool_decide_unpack _). vm_compute. reflexivity. Qed.

Lemma redraw_Some w1 w2 more w :
  redraw w1 w2 more = Some w ->
  w <> w1 /\ (w = w2 \/ exists i, i ∈ more /\ w = nth i WORDS EmptyString).
Proof.
  revert w2. induction more as [|i more IH]; intros w2; simpl.
  - destruct (decide (w2 = w1)) as [->|Hne].
    + by rewrite bool_decide_eq_true_2.
    + rewrite bool_decide_eq_false_2 by done. intros [= <-]. split; [done|by left].
  - destruct (decide (w2 = w1)) as [->|Hne].
    + rewrite bool_decide_eq_true_2 by done. intros Hr.
      destruct (IH _ Hr) as [Hw [->|(j & Hj & ->)]].
      * split; [done|]. right. exists i. split; [left|done].
      * split; [done|]. right. exists j. split; [by right|done].
    + rewrite bool_decide_eq_false_2 by done. intros [= <-]. split; [done|by left].
Qed.

Lemma redraw_first w1 w2 more : w2 <> w1 -> redraw w1 w2 more = Some w2.
Proof. intros Hne. destruct more; simpl; by rewrite bool_decide_eq_false_2. Qed.

(** A generated code: the number without leading zeros, two different
    words of the word list, and a text that [parseCode] reads back. *)
Theorem generateCode_spec num (i1 i2 : nat) (more : list nat) code :
  generateCode num i1 i2 more = Some code ->
  1 <= num <= 999 ->
  (i1 < 500)%nat -> (i2 < 500)%nat -> Forall (fun i => (i < 500)%nat) more ->
  exists (w1 w2 : string),
    code = pretty num +:+ "-" +:+ w1 +:+ "-" +:+ w2
    /\ w1 ∈ WORDS /\ w2 ∈ WORDS /\ w1 <> w2
    /\ (forall rest, pretty num <> String "0" rest)
    /\ parseCode code = Some (mkParsed num w1 w2).
Proof.
  unfold generateCode. intros Hg Hnum H1 H2 Hmore.
  destruct (redraw _ _ more) as [w2|] eqn:R; [|done].
  injection Hg as <-.
  apply redraw_Some in R as [Hne Hfrom].
  set (w1 := nth i1 WORDS EmptyString) in *.
  assert (Hw1 : w1 ∈ WORDS) by (apply nth_elem_of; by rewrite WORDS_length).
  assert (Hw2 : w2 ∈ WORDS).
  { destruct Hfrom as [->|(j & Hj & ->)];
      apply nth_elem_of; rewrite WORDS_length; [done|].
    rewrite Forall_forall in Hmore. by apply Hmore. }
  pose proof (numbers_well_rendered num Hnum) as Hr.
  unfold well_rendered in Hr.
  apply andb_true_iff in Hr as [[Hd Hv]%andb_true_iff Hz].
  apply bool_decide_eq_true in Hv.
  pose proof (WORDS_ok w1 Hw1) as [Hl1 Hn1%negb_true_iff]%andb_true_iff.
  pose proof (WORDS_ok w2 Hw2) as [Hl2 Hn2%negb_true_iff]%andb_true_iff.
  apply bool_decide_eq_false in Hn1. apply bool_decide_eq_false in Hn2.
  exists w1, w2. split; [done|]. split; [done|]. split; [done|].
  split; [done|]. split.
  { intros rest E. rewrite E in Hz. by rewrite bool_decide_eq_true_2 in Hz. }
  apply parseCode_iff. exists (pretty num). simpl.
  split; [|split; [done|lia]].
  repeat split; try done. intros E. by rewrite E in Hz.
Qed.

Lemma generateCode_spec_witness :
  exists (w1 w2 : string),
    "42-acid-acorn"%string = pretty 42 +:+ "-" +:+ w1 +:+ "-" +:+ w2
    /\ w1 ∈ WORDS /\ w2 ∈ WORDS /\ w1 <> w2
    /\ (forall rest, pretty 42 <> String "0" rest)
    /\ parseCode "42-acid-acorn" = Some (mkParsed 42 w1 w2).
Proof.
  apply (generateCode_spec 42 0 0 [0%nat; 1%nat] "42-acid-acorn").
  - reflexivity.
  - lia.
  - lia.
  - lia.
  - repeat constructor.
Defined.

(** The loop of [generateCode] ends as soon as a draw differs from the
    first word. *)
Lemma generateCode_returns num (i1 i2 : nat) (more : list nat) :
  nth i2 WORDS EmptyString <> nth i1 WORDS EmptyString ->
  generateCode num i1 i2 more
  = Some (pretty num +:+ "-" +:+ nth i1 WORDS EmptyString
            +:+ "-" +:+ nth i2 WORDS EmptyString).
Proof. intros Hne. unfold generateCode. by rewrite redraw_first. Qed.

End CodesFacts.

(** * Properties of the cipher and the envelope *)

Module CryptoFacts.
Import NodeCrypto Crypto.
Local Open Scope nat_scope.

Implicit Types (key iv blob plaintext ct tag : list byte).

(** *** Known answers

    FIPS 197, appendix C.3 (AES-256), and the AES-256 test cases 13, 14 and
    15 of the GCM specification. *)

Definition unhex_digit (c : ascii) : N :=
  let n := N_of_ascii c in
  (if 97 <=? n then n - 87 else n - 48)%N.

Fixpoint unhex (s : string) : list N :=
  match s with
  | String a (String b rest) =>
      (16 * unhex_digit a + unhex_digit b)%N :: unhex rest
  | _ => []
  end.

Definition bytes (s : string) : list byte := map byte_of_N (unhex s).

Definition gcm_seal (key iv plaintext : list byte) : list byte * list byte :=
  let c := (cipher_update (mkCipher key iv []) plaintext).2 in
  (c_out c, getAuthTag c).

Example sbox_first_row :
  take 16 sbox_table = unhex "637c777bf26b6fc53001672bfed7ab76".
Proof. vm_compute. reflexivity. Qed.

Example aes256_fips197_c3 :
  aes256_encrypt_block
    (unhex "000102030405060708090a0b0c0d0e0f101112131415161718191a1b1c1d1e1f")
    (unhex "00112233445566778899aabbccddeeff")
  = unhex "8ea2b7ca516745bfeafc49904b496089".
Proof. vm_compute. reflexivity. Qed.

Example gcm_test_case_13 :
  gcm_seal (repeat x00 32) (repeat x00 12) []
  = ([], bytes "530f8afbc74536b9a963b4f1c4cb738b").
Proof. vm_compute. reflexivity. Qed.

Example gcm_test_case_14 :
  gcm_seal (repeat x00 32) (repeat x00 12) (repeat x00 16)
  = (bytes "cea7403d4d606b6e074ec5d3baf39d18",
     bytes "d0d1c8a799996bf0265b98b5d48ab919").
Proof. vm_compute. reflexivity. Qed.

Example gcm_test_case_15 :
  gcm_seal
    (bytes "feffe9928665731c6d6a8f9467308308feffe9928665731c6d6a8f9467308308")
    (bytes "cafebabefacedbaddecaf888")
    (bytes ("d9313225f88406e5a55909c5aff5269a86a7a9531534f7da2e4c303d8a318a72"
            +:+ "1c3c0c95956809532fcf0e2449a6b525b16aedf5aa0de657ba637b391aafd255"))
  = (bytes ("522dc1f099567d07f47f37a32a84427d643a8cdcbfe5c0c97598a2bd2555d1aa"
            +:+ "8cb08e48590dbb3da7b08b1056828838c5f61e6393ba7a0abcc9f662898015ad"),
     bytes "b094dac5d93471bdec1a502270e3cc6c").
Proof. vm_compute. reflexivity. Qed.

(** *** Bytes *)

Lemma to_N_byte_of_N n : Byte.to_N (byte_of_N n) = (n mod 256)%N.
Proof.
  unfold byte_of_N.
  destruct (Byte.of_N (n mod 256)) as [b|] eqn:E; simpl.
  - by apply Byte.to_of_N.
  - apply Byte.of_N_None_iff in E.
    pose proof (N.mod_upper_bound n 256). lia.
Qed.

Lemma byte_of_N_to_N b : byte_of_N (Byte.to_N b) = b.
Proof.
  unfold byte_of_N. pose proof (Byte.to_N_bounded b).
  rewrite N.mod_small by lia. by rewrite Byte.of_to_N.
Qed.

Lemma lxor_mod_cancel a b :
  (N.lxor (N.lxor a b mod 2 ^ 8) b mod 2 ^ 8 = a mod 2 ^ 8)%N.
Proof.
  apply N.bits_inj. intros i.
  destruct (N.lt_ge_cases i 8) as [Hi|Hi].
  - rewrite !N.mod_pow2_bits_low, N.lxor_spec, N.mod_pow2_bits_low,
      N.lxor_spec by done.
    by destruct (N.testbit a i), (N.testbit b i).
  - by rewrite !N.mod_pow2_bits_high.
Qed.

Lemma bxor_cancel (a b : byte) : bxor (bxor a b) b = a.
Proof.
  unfold bxor. rewrite to_N_byte_of_N.
  rewrite <- (byte_of_N_to_N a) at 2.
  unfold byte_of_N. do 2 f_equal.
  change 256%N with (2 ^ 8)%N. apply lxor_mod_cancel.
Qed.

Lemma zip_bxor_cancel (l ks : list byte) :
  length l <= length ks -> zip_with bxor (zip_with bxor l ks) ks = l.
Proof.
  revert ks. induction l as [|a l IH]; intros [|k ks] Hlen; simpl in *;
    try done; try lia.
  rewrite bxor_cancel, IH; [done|lia].
Qed.

(** *** Lengths *)

Lemma gcm_keystream_length key iv off n :
  length (gcm_keystream key iv off n) = n.
Proof. unfold gcm_keystream. by rewrite length_map, length_seq. Qed.

Lemma gcm_tag_length key iv ct : length (gcm_tag key iv ct) = 16%nat.
Proof. unfold gcm_tag, bytes_of_block. by rewrite !length_map, length_seq. Qed.

(** The ciphertext that [cipher.update] makes of a whole plaintext. *)
Definition ciphertext_of (key iv plaintext : list byte) : list byte :=
  zip_with bxor plaintext (gcm_keystream key iv 0 (length plaintext)).

Lemma ciphertext_of_length key iv plaintext :
  length (ciphertext_of key iv plaintext) = length plaintext.
Proof.
  unfold ciphertext_of. rewrite length_zip_with_l_eq; [done|].
  by rewrite gcm_keystream_length.
Qed.

(** *** What [encrypt] and [decrypt] compute *)

Lemma encrypt_unfold iv plaintext key :
  encrypt iv plaintext key
  = if bool_decide (length key = 32%nat)
    then Ok (iv ++ ciphertext_of key iv plaintext
                ++ gcm_tag key iv (ciphertext_of key iv plaintext))
    else Throw "Invalid key length".
Proof.
  unfold encrypt, createCipheriv.
  destruct (bool_decide (length key = 32%nat)); [|done].
  simpl. unfold getAuthTag, ciphertext_of. simpl. by rewrite app_nil_r.
Qed.

Lemma decrypt_short blob key :
  length blob < 28 -> decrypt blob key = Throw "Invalid encrypted blob: too short".
Proof.
  intros H. unfold decrypt, IV_LENGTH, AUTH_TAG_LENGTH.
  by rewrite bool_decide_eq_true_2 by (simpl; lia).
Qed.

(** The three parts [decrypt] cuts a blob into. *)
Definition blob_iv blob : list byte := subarray blob 0 IV_LENGTH.
Definition blob_tag blob : list byte := drop (length blob - AUTH_TAG_LENGTH) blob.
Definition blob_ciphertext blob : list byte :=
  subarray blob IV_LENGTH (length blob - AUTH_TAG_LENGTH).

Lemma decrypt_unfold blob key :
  28 <= length blob ->
  decrypt blob key
  = if bool_decide (length key = 32%nat) then
      if bool_decide
           (blob_tag blob = gcm_tag key (blob_iv blob) (blob_ciphertext blob))
      then Ok (zip_with bxor (blob_ciphertext blob)
                 (gcm_keystream key (blob_iv blob) 0
                    (length (blob_ciphertext blob))))
      else Throw "Unsupported state or unable to authenticate data"
    else Throw "Invalid key length".
Proof.
  intros H. unfold decrypt.
  rewrite bool_decide_eq_false_2
    by (unfold IV_LENGTH, AUTH_TAG_LENGTH; simpl; lia).
  fold (blob_iv blob) (blob_tag blob) (blob_ciphertext blob).
  unfold createDecipheriv.
  destruct (bool_decide (length key = 32%nat)); [|done].
  simpl. unfold decipher_final. simpl.
  destruct (decide (blob_tag blob
                    = gcm_tag key (blob_iv blob) (blob_ciphertext blob)))
    as [Ht|Ht].
  - rewrite !bool_decide_eq_true_2 by congruence. simpl. by rewrite app_nil_r.
  - rewrite !bool_decide_eq_false_2 by congruence. done.
Qed.

Lemma blob_parts iv ct tag :
  length iv = 12%nat -> length tag = 16%nat ->
  blob_iv (iv ++ ct ++ tag) = iv
  /\ blob_ciphertext (iv ++ ct ++ tag) = ct
  /\ blob_tag (iv ++ ct ++ tag) = tag.
Proof.
  intros Hiv Htag.
  unfold blob_iv, blob_ciphertext, blob_tag, subarray, IV_LENGTH,
    AUTH_TAG_LENGTH.
  rewrite !length_app, Hiv, Htag. split; [|split].
  - rewrite drop_0. by rewrite take_app_length'.
  - rewrite drop_app_length' by done.
    rewrite take_app_length'; [done|lia].
  - rewrite app_assoc. rewrite drop_app_length'; [done|].
    rewrite length_app. lia.
Qed.

Lemma decrypt_envelope iv ct tag key :
  length iv = 12%nat -> length tag = 16%nat -> length key = 32%nat ->
  decrypt (iv ++ ct ++ tag) key
  = if bool_decide (tag = gcm_tag key iv ct)
    then Ok (zip_with bxor ct (gcm_keystream key iv 0 (length ct)))
    else Throw "Unsupported state or unable to authenticate data".
Proof.
  intros Hiv Htag Hkey.
  rewrite decrypt_unfold by (rewrite !length_app; lia).
  destruct (blob_parts iv ct tag Hiv Htag) as (-> & -> & ->).
  by rewrite bool_decide_eq_true_2 by done.
Qed.

(** The envelope [encrypt] builds under a 32-byte key. *)
Definition envelope_of (key iv plaintext : list byte) : list byte :=
  iv ++ ciphertext_of key iv plaintext
     ++ gcm_tag key iv (ciphertext_of key iv plaintext).

Lemma encrypt_envelope iv plaintext key :
  length key = 32 -> encrypt iv plaintext key = Ok (envelope_of key iv plaintext).
Proof.
  intros Hkey. rewrite encrypt_unfold. by rewrite bool_decide_eq_true_2 by done.
Qed.

Lemma envelope_of_length key iv plaintext :
  length iv = 12 -> length (envelope_of key iv plaintext) = length plaintext + 28.
Proof.
  intros Hiv. unfold envelope_of.
  rewrite !length_app, ciphertext_of_length, gcm_tag_length, Hiv. lia.
Qed.

Lemma decrypt_envelope_of iv plaintext key :
  length iv = 12 -> length key = 32 ->
  decrypt (envelope_of key iv plaintext) key = Ok plaintext.
Proof.
  intros Hiv Hkey. unfold envelope_of.
  rewrite decrypt_envelope by (done || apply gcm_tag_length).
  rewrite bool_decide_eq_true_2 by done. f_equal.
  rewrite ciphertext_of_length. apply zip_bxor_cancel.
  by rewrite gcm_keystream_length.
Qed.

(** *** The round trip

    C3: for every plaintext, every 32-byte key and every 12-byte nonce,
    [encrypt] returns an envelope, and [decrypt] with the same key returns
    exactly the plaintext. *)
Theorem encrypt_decrypt_roundtrip iv plaintext key :
  length iv = 12 -> length key = 32 ->
  exists blob,
    encrypt iv plaintext key = Ok blob /\ decrypt blob key = Ok plaintext.
Proof.
  intros Hiv Hkey. exists (envelope_of key iv plaintext).
  split; [by apply encrypt_envelope | by apply decrypt_envelope_of].
Qed.

Lemma encrypt_decrypt_roundtrip_witness :
  exists blob,
    encrypt (repeat x00 12) [x68; x69] (repeat x01 32) = Ok blob
    /\ decrypt blob (repeat x01 32) = Ok [x68; x69].
Proof.
  apply (encrypt_decrypt_roundtrip (repeat x00 12) [x68; x69] (repeat x01 32));
    reflexivity.
Defined.

(** C10: the envelope of a plaintext [p] is the nonce, a ciphertext as
    long as [p] and the 16-byte tag, [length p + 28] bytes in all; the
    store therefore turns it down as too large exactly when [length p + 28]
    exceeds [maxSize], and accepts it under a free identifier exactly when
    [length p] is at most [maxSize - 28]. *)
Theorem envelope_length iv plaintext key :
  length iv = 12 -> length key = 32 ->
  exists ct tag,
    encrypt iv plaintext key = Ok (iv ++ ct ++ tag)
    /\ length ct = length plaintext /\ length tag = 16
    /\ length (iv ++ ct ++ tag) = length plaintext + 28
    /\ forall id md now (s : TransferStore.t),
         let r := TransferStore.put id (iv ++ ct ++ tag) md now s in
         (r.1 = PutError ("Payload too large: "
                          +:+ pretty (length plaintext + 28)
                          +:+ " bytes (max " +:+ pretty (TransferStore.maxSize s)
                          +:+ ")")
            <-> (Z.of_nat (length plaintext) > TransferStore.maxSize s - 28)%Z)
         /\ (TransferStore.entries s !! id = None ->
             r.1 = PutOk
             <-> (Z.of_nat (length plaintext) <= TransferStore.maxSize s - 28)%Z).
Proof.
  intros Hiv Hkey.
  exists (ciphertext_of key iv plaintext),
         (gcm_tag key iv (ciphertext_of key iv plaintext)).
  fold (envelope_of key iv plaintext).
  pose proof (envelope_of_length key iv plaintext Hiv) as Hlen.
  split; [by apply encrypt_envelope|].
  split; [apply ciphertext_of_length|].
  split; [apply gcm_tag_length|]. split; [done|].
  intros id md now s. cbv zeta. unfold TransferStore.put. rewrite Hlen.
  destruct (decide (Z.of_nat (length plaintext + 28) > TransferStore.maxSize s)%Z)
    as [Hbig|Hsmall].
  - rewrite bool_decide_eq_true_2 by done. simpl.
    split; [split; [lia|done]|]. intros _. split; [done|lia].
  - rewrite bool_decide_eq_false_2 by done. split.
    + split; [|lia].
      by destruct (bool_decide (is_Some (TransferStore.entries s !! id))).
    + intros Hfree. rewrite bool_decide_eq_false_2 by (rewrite Hfree; by intros [? ?]).
      simpl. split; [lia|done].
Qed.

Lemma envelope_length_witness :
  exists ct tag,
    encrypt (repeat x00 12) [x68; x69] (repeat x01 32)
    = Ok (repeat x00 12 ++ ct ++ tag)
    /\ length ct = 2 /\ length tag = 16
    /\ length (repeat x00 12 ++ ct ++ tag) = 30.
Proof.
  destruct (envelope_length (repeat x00 12) [x68; x69] (repeat x01 32)
              eq_refl eq_refl) as (ct & tag & He & Hc & Ht & Hl & _).
  exists ct, tag. done.
Defined.

(** *** Opening with another key

    C4, as the spec states it, fails: the tag does not tell every pair of
    keys apart.  Under the all-zero nonce the 16 bytes [collision_plaintext]
    are sealed by [collision_key1] into an envelope whose tag is also the
    tag of its ciphertext under [collision_key2], so opening with the
    second key what the first key sealed returns 16 bytes, which are not
    the plaintext, instead of failing.  The plaintext is the solution [C]
    of the tag equation [C * (H1 + H2)^2 = len * (H1 + H2) + E1(J0) + E2(J0)]
    in GF(2^128), combined with the key stream of the first key. *)





(** Two keys that the tag does tell apart on the plaintext [hi]. *)
Example wrong_key_rejected :
  (blob ← encrypt (repeat x00 12) [x68; x69] (repeat x01 32);
   decrypt blob (repeat x02 32))
  = Throw "Unsupported state or unable to authenticate data".
Proof. vm_compute. reflexivity. Qed.


End CryptoFacts.

(** * Properties of the client *)

Module ClientFacts.
Import Codes CodesFacts.

Section Receive.

Variable pbkdf2Sync : string -> string -> Z -> nat -> string -> list byte.

Lemma receive_invalid code relay :
  isValidCode code = false ->
  receive pbkdf2Sync code relay
  = ([], Throw ("Invalid wormhole code: " +:+ code), relay).
Proof. intros H. unfold receive. by rewrite H. Qed.

Lemma receive_valid code relay :
  isValidCode code = true ->
  exists r relay',
    receive pbkdf2Sync code relay
    = ([DerivedEncryptionKey code; DerivedRelayKey code;
        Fetched "GET" ("/transfer/" +:+ deriveRelayKey pbkdf2Sync code)],
       r, relay').
Proof.
  intros H. unfold receive. rewrite H. simpl.
  destruct (download (deriveRelayKey pbkdf2Sync code) relay) as [[b|m] relay'];
    by eexists _, _.
Qed.

(** C8, amended: the check that [receive] applies to its code before any
    key is derived and before the relay is contacted is [isValidCode]; it
    accepts a code exactly when the code has the form digits, hyphen,
    lower-case word, hyphen, lower-case word with the number in 1 .. 999.
    It asks neither that the two words differ nor that they are in the word
    list.  A code it rejects makes [receive] throw with no key derived, no
    request sent and the relay untouched; for a code it accepts the keys
    are derived and the relay is asked. *)
Theorem receive_checks_format_only code relay :
  (isValidCode code = true
   <-> exists d (w1 w2 : string),
         matches_code_pattern code d w1 w2 /\ 1 <= decimal_value d <= 999)
  /\ (isValidCode code = false ->
      receive pbkdf2Sync code relay
      = ([], Throw ("Invalid wormhole code: " +:+ code), relay))
  /\ (isValidCode code = true ->
      exists r relay',
        receive pbkdf2Sync code relay
        = ([DerivedEncryptionKey code; DerivedRelayKey code;
            Fetched "GET" ("/transfer/" +:+ deriveRelayKey pbkdf2Sync code)],
           r, relay')).
Proof.
  split; [apply isValidCode_iff|].
  split; [apply receive_invalid | apply receive_valid].
Qed.

End Receive.

(** *** The relay's handlers *)

Lemma exceeds_total (max size : Z) (chunks : list (list byte)) :
  size <= max ->
  Relay.exceeds max size chunks
  = bool_decide (size + Z.of_nat (length (concat chunks)) > max).
Proof.
  revert size. induction chunks as [|c chunks IH]; intros size Hs; simpl.
  - by rewrite bool_decide_eq_false_2 by lia.
  - rewrite length_app.
    destruct (decide (size + Z.of_nat (length c) > max)) as [Hc|Hc].
    + by rewrite !bool_decide_eq_true_2 by lia.
    + rewrite bool_decide_eq_false_2 by done. rewrite IH by lia.
      apply bool_decide_ext. lia.
Qed.

(** However the body is cut into chunks, [handlePut] answers 413 exactly
    when the body is longer than [maxSize], and otherwise what [put] says. *)
Lemma handlePut_whole id (chunks : list (list byte)) now (s : TransferStore.t) :
  0 <= TransferStore.maxSize s ->
  Relay.handlePut id chunks now s
  = if bool_decide (Z.of_nat (length (concat chunks)) > TransferStore.maxSize s)
    then (413, "Payload too large (max " +:+ pretty (TransferStore.maxSize s)
                +:+ " bytes)", s)
    else
      if bool_decide (is_Some (TransferStore.entries s !! id))
      then (409, "Transfer ID already exists"%string, s)
      else (201, EmptyString,
            TransferStore.with_entries s
              (<[id := mkEntry (concat chunks) now None]>
                 (TransferStore.entries s))).
Proof.
  intros Hmax. unfold Relay.handlePut. rewrite exceeds_total by done.
  rewrite Z.add_0_l.
  destruct (bool_decide (Z.of_nat (length (concat chunks))
                         > TransferStore.maxSize s)) eqn:Hbig; [done|].
  unfold TransferStore.put. rewrite Hbig.
  by destruct (bool_decide (is_Some (TransferStore.entries s !! id))).
Qed.

(** For a size limit that is not negative, the answer of [handlePut]
    depends on the body only as a whole: the check made chunk by chunk
    answers 413, and leaves the store as it is, exactly when the whole
    body is longer than [maxSize]; a body within the limit gets what [put]
    says of the whole body, 201 or 409 with the error of [put]; and any
    other way of cutting the same body into chunks gets the same answer. *)
Theorem handlePut_chunking id (chunks : list (list byte)) now
    (s : TransferStore.t) :
  0 <= TransferStore.maxSize s ->
  let body := concat chunks in
  let r := Relay.handlePut id chunks now s in
  (r.1.1 = 413 <-> Z.of_nat (length body) > TransferStore.maxSize s)
  /\ (r.1.1 = 413 -> r.2 = s)
  /\ (Z.of_nat (length body) <= TransferStore.maxSize s ->
      r = match (TransferStore.put id body None now s).1 with
          | PutOk => (201, EmptyString, (TransferStore.put id body None now s).2)
          | PutError error =>
              (409, error, (TransferStore.put id body None now s).2)
          end)
  /\ (forall chunks', concat chunks' = body ->
        Relay.handlePut id chunks' now s = r).
Proof.
  intros Hmax. cbv zeta. split; [|split; [|split]].
  - rewrite handlePut_whole by done.
    destruct (decide (Z.of_nat (length (concat chunks))
                      > TransferStore.maxSize s)) as [Hbig|Hfit].
    + by rewrite bool_decide_eq_true_2 by done.
    + rewrite bool_decide_eq_false_2 by done.
      by destruct (bool_decide (is_Some (TransferStore.entries s !! id))).
  - rewrite handlePut_whole by done.
    destruct (bool_decide (Z.of_nat (length (concat chunks))
                           > TransferStore.maxSize s)); [done|].
    by destruct (bool_decide (is_Some (TransferStore.entries s !! id))).
  - intros Hfit. unfold Relay.handlePut. rewrite exceeds_total by done.
    by rewrite bool_decide_eq_false_2 by lia.
  - intros chunks' Hc. rewrite !handlePut_whole by done. by rewrite Hc.
Qed.

(** Two chunks of one byte against a limit of one byte: each chunk is
    within the limit and the body is not. *)
Lemma handlePut_chunking_witness :
  let s := TransferStore.new (mkOptions (Some 1) None None) in
  let body := concat [[x68]; [x69]] in
  let r := Relay.handlePut "ab" [[x68]; [x69]] 0 s in
  (r.1.1 = 413 <-> Z.of_nat (length body) > TransferStore.maxSize s)
  /\ (r.1.1 = 413 -> r.2 = s)
  /\ (Z.of_nat (length body) <= TransferStore.maxSize s ->
      r = match (TransferStore.put "ab" body None 0 s).1 with
          | PutOk => (201, EmptyString, (TransferStore.put "ab" body None 0 s).2)
          | PutError error =>
              (409, error, (TransferStore.put "ab" body None 0 s).2)
          end)
  /\ (forall chunks', concat chunks' = body ->
        Relay.handlePut "ab" chunks' 0 s = r).
Proof.
  cbv zeta.
  apply (handlePut_chunking "ab" [[x68]; [x69]] 0
           (TransferStore.new (mkOptions (Some 1) None None))).
  simpl. lia.
Defined.

(** *** One transfer, end to end *)

Section EndToEnd.

Variable pbkdf2Sync : string -> string -> Z -> nat -> string -> list byte.
Variable split : list byte -> list (list byte).

Hypothesis pbkdf2Sync_length :
  forall password salt iterations keylen digest,
    length (pbkdf2Sync password salt iterations keylen digest) = keylen.
Hypothesis split_concat : forall body, concat (split body) = body.

(** A payload whose envelope fits the relay, sent under a code whose relay
    key is free, is received once, unchanged; a second [receive] with the
    same code finds nothing. *)
Theorem send_receive_once code iv payload now (relay : TransferStore.t) :
  isValidCode code = true ->
  length iv = 12%nat ->
  TransferStore.entries relay !! deriveRelayKey pbkdf2Sync code = None ->
  Z.of_nat (length payload) + 28 <= TransferStore.maxSize relay ->
  exists relay1 relay2 effects,
    send pbkdf2Sync iv split code payload now relay
    = (Ok (length payload), relay1)
    /\ receive pbkdf2Sync code relay1 = (effects, Ok payload, relay2)
    /\ receive pbkdf2Sync code relay2
       = (effects, Throw "Transfer not found or already retrieved", relay2).
Proof.
  intros Hvalid Hiv Hfree Hfit.
  set (encKey := deriveEncryptionKey pbkdf2Sync code).
  set (relayKey := deriveRelayKey pbkdf2Sync code) in *.
  assert (Hkey : length encKey = 32%nat) by apply pbkdf2Sync_length.
  set (blob := CryptoFacts.envelope_of encKey iv payload).
  assert (Hblob : Z.of_nat (length blob) = Z.of_nat (length payload) + 28).
  { unfold blob. rewrite CryptoFacts.envelope_of_length by done. lia. }
  set (relay1 := TransferStore.with_entries relay
                   (<[relayKey := mkEntry blob now None]>
                      (TransferStore.entries relay))).
  set (relay2 := TransferStore.with_entries relay1
                   (base.delete relayKey (TransferStore.entries relay1))).
  exists relay1, relay2. eexists.
  assert (Hsend : send pbkdf2Sync iv split code payload now relay
                  = (Ok (length payload), relay1)).
  { unfold send. fold encKey relayKey.
    rewrite (CryptoFacts.encrypt_envelope iv payload encKey Hkey). fold blob.
    unfold upload. rewrite handlePut_whole by lia. rewrite split_concat.
    rewrite bool_decide_eq_false_2 by lia.
    rewrite bool_decide_eq_false_2 by (rewrite Hfree; by intros [? ?]).
    done. }
  assert (Hget1 : TransferStore.get relayKey relay1
                  = (Some (mkEntry blob now None), relay2)).
  { unfold TransferStore.get. unfold relay1 at 1. simpl.
    by rewrite lookup_insert_eq. }
  assert (Hget2 : TransferStore.get relayKey relay2 = (None, relay2)).
  { apply StoreFacts.get_absent. unfold relay2. simpl.
    apply lookup_delete_eq. }
  split; [exact Hsend|]. split.
  - unfold receive. rewrite Hvalid. simpl. fold encKey relayKey.
    unfold download, Relay.handleGet. rewrite Hget1. simpl. unfold blob.
    by rewrite (CryptoFacts.decrypt_envelope_of iv payload encKey Hiv Hkey).
  - unfold receive. rewrite Hvalid. simpl. fold encKey relayKey.
    unfold download, Relay.handleGet. by rewrite Hget2.
Qed.

End EndToEnd.

(** The scenario of the spec: [hello wormhole!] through a relay with the
    default limits; a stand-in takes the place of PBKDF2. *)
Lemma send_receive_once_witness :
  let kdf := fun (password salt : string) (iterations : Z) (keylen : nat)
                 (digest : string) => repeat x07 keylen in
  let hello := [x68; x65; x6c; x6c; x6f; x20; x77; x6f; x72; x6d; x68; x6f;
                x6c; x65; x21] in
  exists relay1 relay2 effects,
    send kdf (repeat x00 12) (fun body => [body]) "42-banana-thunder" hello 0
      (TransferStore.new (mkOptions None None None))
    = (Ok 15%nat, relay1)
    /\ receive kdf "42-banana-thunder" relay1 = (effects, Ok hello, relay2)
    /\ receive kdf "42-banana-thunder" relay2
       = (effects, Throw "Transfer not found or already retrieved", relay2).
Proof.
  cbv zeta.
  apply (send_receive_once
           (fun _ _ _ keylen _ => repeat x07 keylen) (fun body => [body])).
  - intros. apply repeat_length.
  - intros body. simpl. apply app_nil_r.
  - vm_compute. reflexivity.
  - reflexivity.
  - vm_compute. reflexivity.
  - vm_compute. discriminate.
Defined.

End ClientFacts.

(** * Further properties of the store *)

Module StoreMore.
Import TransferStore StoreFacts.

Implicit Types (s : t) (id : string) (now : Z).

Lemma with_entries_id s : with_entries s (entries s) = s.
Proof. by destruct s. Qed.

Lemma get_after_put id d md now s :
  Z.of_nat (length d) <= maxSize s -> entries s !! id = None ->
  get id (put id d md now s).2 = (Some (mkEntry d now md), s).
Proof.
  intros Hsz Hfree. rewrite (put_small_fresh id d md now s Hsz Hfree).
  unfold get. cbn [snd entries with_entries].
  rewrite lookup_insert_eq. f_equal.
  unfold with_entries. cbn. rewrite delete_insert_eq, delete_id by done.
  by destruct s.
Qed.

(** An accepted [put] followed by [get] gives back the payload, the
    metadata and the time of the [put], and leaves the store as it was
    before the [put]. *)
Theorem put_get_roundtrip id d md now s :
  Z.of_nat (length d) <= maxSize s -> entries s !! id = None ->
  (put id d md now s).1 = PutOk
  /\ get id (put id d md now s).2 = (Some (mkEntry d now md), s).
Proof.
  intros Hsz Hfree. split; [|by apply get_after_put].
  by rewrite (put_small_fresh id d md now s Hsz Hfree).
Qed.

Lemma put_get_roundtrip_witness :
  get "ab" (put "ab" [x68; x69] (Some "note"%string) 7
              (new (mkOptions None None None))).2
  = (Some (mkEntry [x68; x69] 7 (Some "note"%string)),
     new (mkOptions None None None)).
Proof.
  apply (put_get_roundtrip "ab" [x68; x69] (Some "note"%string) 7
           (new (mkOptions None None None))).
  - vm_compute. discriminate.
  - reflexivity.
Defined.

Lemma put_other id d md now s j :
  id <> j -> entries (put id d md now s).2 !! j = entries s !! j.
Proof.
  intros Hne. unfold put.
  destruct (bool_decide (Z.of_nat (length d) > maxSize s)); [done|].
  destruct (bool_decide (is_Some (entries s !! id))); [done|].
  cbn. by rewrite lookup_insert_ne.
Qed.

Lemma get_other id s j :
  id <> j -> entries (get id s).2 !! j = entries s !! j.
Proof. intros Hne. rewrite get_entries. by apply lookup_delete_ne. Qed.

Lemma delete_other id s j :
  id <> j -> entries (delete id s).2 !! j = entries s !! j.
Proof. intros Hne. cbn. by apply lookup_delete_ne. Qed.

(** [put], [get] and [delete] on one identifier leave the entry of every
    other identifier as it is, whatever they answer. *)
Theorem other_identifiers_untouched id j d md now s :
  id <> j ->
  entries (put id d md now s).2 !! j = entries s !! j
  /\ entries (get id s).2 !! j = entries s !! j
  /\ entries (delete id s).2 !! j = entries s !! j.
Proof.
  intros Hne. split; [by apply put_other|].
  split; [by apply get_other | by apply delete_other].
Qed.

Lemma other_identifiers_untouched_witness :
  entries (put "cd" [x00] None 5 one_entry_store).2 !! "ab"%string
  = entries one_entry_store !! "ab"%string
  /\ entries (get "cd" one_entry_store).2 !! "ab"%string
     = entries one_entry_store !! "ab"%string
  /\ entries (delete "cd" one_entry_store).2 !! "ab"%string
     = entries one_entry_store !! "ab"%string.
Proof.
  apply (other_identifiers_untouched "cd" "ab" [x00] None 5 one_entry_store).
  discriminate.
Defined.

Lemma size_delete_present (m : gmap string TransferEntry) id e :
  m !! id = Some e -> size m = S (size (base.delete id m)).
Proof.
  intros E. rewrite map_size_delete_Some by by eexists.
  assert (size m <> 0%nat) by (apply map_size_ne_0_lookup_2 with id; by eexists).
  lia.
Qed.

(** [delete(id)] answers what [has(id)] answered; afterwards [has(id)] is
    false, and [count] has dropped by one exactly when the answer was
    true. *)
Theorem delete_spec id s :
  (delete id s).1 = has id s
  /\ has id (delete id s).2 = false
  /\ count s = (count (delete id s).2 + if has id s then 1 else 0)%nat.
Proof.
  unfold delete, has, count. cbn. split; [done|]. split.
  - apply bool_decide_eq_false_2. rewrite lookup_delete_eq. by intros [? ?].
  - destruct (entries s !! id) as [e|] eqn:E.
    + rewrite bool_decide_eq_true_2 by by eexists.
      rewrite (size_delete_present _ id e E). lia.
    + rewrite bool_decide_eq_false_2 by (by intros [? ?]).
      rewrite delete_id by done. lia.
Qed.

(** An accepted [put] raises [count] by one, a rejected one leaves it; a
    [get] that returns an entry lowers it by one, one that returns absent
    leaves it. *)
Theorem count_accounting id d md now s :
  count (put id d md now s).2
  = (count s + match (put id d md now s).1 with PutOk => 1 | PutError _ => 0 end)%nat
  /\ count s
     = (count (get id s).2 + match (get id s).1 with Some _ => 1 | None => 0 end)%nat.
Proof.
  unfold count. split.
  - unfold put.
    destruct (bool_decide (Z.of_nat (length d) > maxSize s)); [cbn; lia|].
    destruct (entries s !! id) as [e|] eqn:E.
    + rewrite bool_decide_eq_true_2 by by eexists. cbn. lia.
    + rewrite bool_decide_eq_false_2 by (by intros [? ?]). cbn.
      rewrite map_size_insert_None by done. lia.
  - unfold get. destruct (entries s !! id) as [e|] eqn:E; cbn; [|lia].
    rewrite (size_delete_present _ id e E). lia.
Qed.

(** *** States the store can reach *)

Inductive Call : Type :=
| CallPut (id : string) (d : list byte) (md : option string) (now : Z)
| CallGet (id : string)
| CallDelete (id : string)
| CallCleanup (now : Z)
| CallDestroy.

Definition call (c : Call) (s : t) : t :=
  match c with
  | CallPut id d md now => (put id d md now s).2
  | CallGet id => (get id s).2
  | CallDelete id => (delete id s).2
  | CallCleanup now => (cleanup now s).2
  | CallDestroy => destroy s
  end.

Definition calls (cs : list Call) (s : t) : t :=
  fold_left (fun s c => call c s) cs s.

(** Every stored payload is within the size limit. *)
Definition sizes_within_limit (s : t) : Prop :=
  forall id e, entries s !! id = Some e -> Z.of_nat (length (data e)) <= maxSize s.

Lemma call_limits c s : maxSize (call c s) = maxSize s /\ ttlMs (call c s) = ttlMs s.
Proof.
  destruct c as [id d md now|id|id|now|]; unfold call.
  - unfold put.
    destruct (bool_decide (Z.of_nat (length d) > maxSize s)); [done|].
    by destruct (bool_decide (is_Some (entries s !! id))).
  - unfold get. by destruct (entries s !! id).
  - done.
  - by rewrite cleanup_filter.
  - done.
Qed.

Lemma call_sizes c s : sizes_within_limit s -> sizes_within_limit (call c s).
Proof.
  intros Hs id' e. destruct (call_limits c s) as [-> _].
  destruct c as [id d md now|id|id|now|]; unfold call.
  - unfold put.
    destruct (decide (Z.of_nat (length d) > maxSize s)) as [Hbig|Hsmall].
    { rewrite bool_decide_eq_true_2 by done. apply Hs. }
    rewrite bool_decide_eq_false_2 by done.
    destruct (bool_decide (is_Some (entries s !! id))); [apply Hs|].
    cbn. destruct (decide (id = id')) as [->|Hne].
    + rewrite lookup_insert_eq. intros [= <-]. cbn. lia.
    + rewrite lookup_insert_ne by done. apply Hs.
  - rewrite get_entries. intros [_ ?]%lookup_delete_Some. by apply (Hs id').
  - unfold delete. cbn. intros [_ ?]%lookup_delete_Some. by apply (Hs id').
  - rewrite cleanup_filter. cbn.
    intros [? _]%map_lookup_filter_Some. by apply (Hs id').
  - cbn. by rewrite lookup_empty.
Qed.

Lemma calls_invariant cs s :
  sizes_within_limit s ->
  sizes_within_limit (calls cs s)
  /\ maxSize (calls cs s) = maxSize s /\ ttlMs (calls cs s) = ttlMs s.
Proof.
  revert s. induction cs as [|c cs IH]; intros s Hs; [done|].
  change (calls (c :: cs) s) with (calls cs (call c s)).
  destruct (IH (call c s) (call_sizes c s Hs)) as (H1 & H2 & H3).
  destruct (call_limits c s) as [Em Et].
  split; [done|]. split; congruence.
Qed.

(** Whatever sequence of [put], [get], [delete], [cleanup] and [destroy] a
    new store goes through, every payload it holds is within [maxSize],
    and [maxSize] and [ttlMs] are those it was made with. *)
Theorem reachable_sizes_within_limit (opts : StoreOptions) (cs : list Call) :
  sizes_within_limit (calls cs (new opts))
  /\ maxSize (calls cs (new opts)) = maxSize (new opts)
  /\ ttlMs (calls cs (new opts)) = ttlMs (new opts).
Proof.
  apply calls_invariant. intros id e. cbn. by rewrite lookup_empty.
Qed.

(** *** Sweeps, one after the other *)

Lemma filter_kept_twice ttl a b (m : gmap string TransferEntry) :
  a <= b ->
  filter (fun kv : string * TransferEntry => ~ expired b ttl kv.2)
    (filter (fun kv : string * TransferEntry => ~ expired a ttl kv.2) m)
  = filter (fun kv : string * TransferEntry => ~ expired b ttl kv.2) m.
Proof.
  intros Hab. apply map_eq. intros j. apply option_eq. intros e.
  rewrite !map_lookup_filter_Some. cbn. unfold expired.
  split; [by intros [[? ?] ?]|]. intros [? ?]. split; [split; [done|lia]|done].
Qed.

Lemma removed_and_kept now ttl (m : gmap string TransferEntry) :
  (size (filter (fun kv : string * TransferEntry => expired now ttl kv.2) m)
   + size (filter (fun kv : string * TransferEntry => ~ expired now ttl kv.2) m)
   = size m)%nat.
Proof.
  symmetry.
  apply (size_filter_split (fun kv : string * TransferEntry => expired now ttl kv.2)).
Qed.

(** A sweep at [t2] after a sweep at an earlier time [t1] leaves the store
    a single sweep at [t2] leaves, and the two counts add up to the count
    of that single sweep; in particular a second sweep at the same time
    removes nothing. *)
Theorem cleanup_twice t1 t2 s :
  t1 <= t2 ->
  (cleanup t2 (cleanup t1 s).2).2 = (cleanup t2 s).2
  /\ ((cleanup t1 s).1 + (cleanup t2 (cleanup t1 s).2).1 = (cleanup t2 s).1)%nat
  /\ (cleanup t2 (cleanup t2 s).2).1 = 0%nat.
Proof.
  intros Ht. rewrite !cleanup_filter. cbn. rewrite ?cleanup_filter. cbn.
  pose proof (filter_kept_twice (ttlMs s) t1 t2 (entries s) Ht) as H12.
  pose proof (filter_kept_twice (ttlMs s) t2 t2 (entries s) (Z.le_refl _)) as H22.
  pose proof (removed_and_kept t1 (ttlMs s) (entries s)) as R1.
  pose proof (removed_and_kept t2 (ttlMs s) (entries s)) as R2.
  pose proof (removed_and_kept t2 (ttlMs s)
                (filter (fun kv : string * TransferEntry
                           => ~ expired t1 (ttlMs s) kv.2) (entries s))) as R12.
  pose proof (removed_and_kept t2 (ttlMs s)
                (filter (fun kv : string * TransferEntry
                           => ~ expired t2 (ttlMs s) kv.2) (entries s))) as R22.
  rewrite H12 in R12. rewrite H22 in R22.
  split; [by rewrite H12|]. split; lia.
Qed.

Lemma cleanup_twice_witness :
  (cleanup 20 (cleanup 5 one_entry_store).2).2 = (cleanup 20 one_entry_store).2
  /\ ((cleanup 5 one_entry_store).1 + (cleanup 20 (cleanup 5 one_entry_store).2).1
      = (cleanup 20 one_entry_store).1)%nat
  /\ (cleanup 20 (cleanup 20 one_entry_store).2).1 = 0%nat.
Proof. apply (cleanup_twice 5 20 one_entry_store). lia. Defined.

(** [destroy()] empties the store and clears the timer, and doing it again
    changes nothing; the store it leaves still takes a [put] within the
    size limit, which no timer will sweep. *)
Theorem destroy_spec s :
  destroy (destroy s) = destroy s
  /\ count (destroy s) = 0%nat
  /\ cleanupTimer (destroy s) = None
  /\ (forall id, get id (destroy s) = (None, destroy s))
  /\ (forall id d md now, Z.of_nat (length d) <= maxSize s ->
        (put id d md now (destroy s)).1 = PutOk
        /\ cleanupTimer (put id d md now (destroy s)).2 = None).
Proof.
  split; [done|]. split; [done|]. split; [done|]. split.
  - intros id. apply get_absent. cbn. apply lookup_empty.
  - intros id d md now Hsz.
    rewrite (put_small_fresh id d md now (destroy s)) by (done || apply lookup_empty).
    done.
Qed.

End StoreMore.

(** * Properties of the relay's request handler *)

Module ServerFacts.
Import TransferStore Server CodesFacts.

Implicit Types (s : t) (id method path : string).

Lemma strip_prefix_Some p (str rest : string) :
  strip_prefix p str = Some rest <-> str = p +:+ rest.
Proof.
  revert str. induction p as [|a p IH]; intros str; cbn.
  - rewrite append_nil_l. split; [by intros [= ->] | by intros ->].
  - destruct str as [|b str]; [by rewrite append_cons|].
    rewrite append_cons. destruct (decide (a = b)) as [->|Hne].
    + rewrite bool_decide_eq_true_2 by done. rewrite IH.
      split; [by intros -> | by intros [= ->]].
    + rewrite bool_decide_eq_false_2 by done.
      split; [done | by intros [= ? _]].
Qed.

(** The paths that reach a transfer handler: [/transfer/] and then one or
    more characters, all of them lower-case hexadecimal digits. *)
Lemma match_route_Some path id :
  match_route path = Some id
  <-> path = "/transfer/" +:+ id
      /\ id <> EmptyString /\ all_chars is_hex id = true.
Proof.
  unfold match_route. split.
  - destruct (strip_prefix "/transfer/" path) as [rest|] eqn:E; [|done].
    apply strip_prefix_Some in E as ->.
    pose proof (Codes.span is_hex rest) as m.
    pose proof (span_append is_hex rest) as A.
    pose proof (span_all is_hex rest) as D.
    destruct (Codes.span is_hex rest) as [g r]. cbn in *.
    destruct g as [|c g]; [done|]. destruct r; [|done].
    intros [= <-]. rewrite append_nil_r in A. by subst rest.
  - intros (-> & Hne & Hhex).
    rewrite (proj2 (strip_prefix_Some "/transfer/" _ id) eq_refl).
    pose proof (span_unique is_hex id EmptyString Hhex) as S.
    rewrite append_nil_r in S. rewrite S by done. cbn. by destruct id.
Qed.

Lemma handleRequest_changes method path chunks now s :
  (handleRequest method path chunks now s).2 <> s ->
  (method = "PUT"%string \/ method = "GET"%string \/ method = "DELETE"%string)
  /\ exists id, path = "/transfer/" +:+ id
       /\ id <> EmptyString /\ all_chars is_hex id = true.
Proof.
  unfold handleRequest.
  destruct (bool_decide (method = "OPTIONS"%string)); [done|].
  destruct (bool_decide (path = "/health"%string) && bool_decide (method = "GET"%string));
    [done|].
  destruct (match_route path) as [id|] eqn:R; [|done].
  apply match_route_Some in R.
  destruct (decide (method = "PUT"%string)) as [->|HP].
  { intros _. split; [by left|by exists id]. }
  rewrite (bool_decide_eq_false_2 _ HP).
  destruct (decide (method = "GET"%string)) as [->|HG].
  { intros _. split; [by right; left|by exists id]. }
  rewrite (bool_decide_eq_false_2 _ HG).
  destruct (decide (method = "DELETE"%string)) as [->|HD].
  { intros _. split; [by right; right|by exists id]. }
  by rewrite (bool_decide_eq_false_2 _ HD).
Qed.

(** What a request can do to the store.  A request whose target does not
    parse as a URL against the [Host] header gets no answer: [new URL]
    throws, and [handleRequest] with it, exactly then.  A request that is
    answered changes the store only when it is a [PUT], a [GET] or a
    [DELETE] and the path of its URL is [/transfer/<id>] with [<id>] a
    non-empty run of lower-case hexadecimal digits: every other answered
    request, whatever its body, leaves the store as it is. *)
Theorem only_transfer_requests_change_store
    (URL_pathname : string -> string -> result string)
    method url host chunks now s :
  let target := default "/"%string url in
  let base := "http://" +:+ default "localhost"%string host in
  (forall m,
      listener URL_pathname method url host chunks now s = Throw m
      <-> URL_pathname target base = Throw m)
  /\ (forall response s',
        listener URL_pathname method url host chunks now s
        = Ok (response, s') ->
        s' <> s ->
        (method = "PUT"%string \/ method = "GET"%string
         \/ method = "DELETE"%string)
        /\ exists id,
             URL_pathname target base = Ok ("/transfer/" +:+ id)
             /\ id <> EmptyString /\ all_chars is_hex id = true).
Proof.
  cbv zeta. unfold listener.
  destruct (URL_pathname (default "/"%string url)
              ("http://" +:+ default "localhost"%string host))
    as [path|e]; cbn [mbind result_bind].
  - split; [intros m; split; intros H; discriminate H|].
    intros response s' [= Hr] Hne.
    destruct (handleRequest_changes method path chunks now s) as [Hm Hid].
    { rewrite Hr. exact Hne. }
    split; [done|]. destruct Hid as (id & -> & Hid). by exists id.
  - split; [intros m; split; intros [= ->]; reflexivity|].
    intros response s' H. discriminate H.
Qed.

(** A stand-in for [new URL(input, base).pathname]: it refuses a target
    that starts with two slashes and gives every other target back. *)
Definition toy_URL_pathname (input base : string) : result string :=
  match input with
  | String "/" (String "/" _) => Throw "Invalid URL"
  | _ => Ok input
  end.

Lemma only_transfer_requests_change_store_witness :
  ("PUT"%string = "PUT"%string \/ "PUT"%string = "GET"%string
   \/ "PUT"%string = "DELETE"%string)
  /\ exists id,
       toy_URL_pathname "/transfer/ab" ("http://" +:+ "localhost")
       = Ok ("/transfer/" +:+ id)
       /\ id <> EmptyString /\ all_chars is_hex id = true.
Proof.
  eapply (proj2 (only_transfer_requests_change_store toy_URL_pathname "PUT"
                   (Some "/transfer/ab"%string) None [[x68]] 0
                   (new (mkOptions None None None)))).
  - reflexivity.
  - vm_compute. discriminate.
Defined.

Lemma handleRequest_route method id chunks now s :
  id <> EmptyString -> all_chars is_hex id = true ->
  method <> "OPTIONS"%string ->
  handleRequest method ("/transfer/" +:+ id) chunks now s
  = if bool_decide (method = "PUT"%string) then handlePut id chunks now s
    else if bool_decide (method = "GET"%string) then handleGet id s
    else if bool_decide (method = "DELETE"%string) then handleDelete id s
    else (mkResponse 405 (JsonError "Method not allowed"), s).
Proof.
  intros Hne Hhex Hm. unfold handleRequest.
  rewrite (bool_decide_eq_false_2 _ Hm).
  rewrite (bool_decide_eq_false_2 ("/transfer/" +:+ id = "/health"%string))
    by (rewrite !append_cons; by intros [= ?]).
  cbn [andb].
  by rewrite (proj2 (match_route_Some _ id)).
Qed.

(** The answers to a [PUT] on a transfer path whose body arrives in
    full, for a store whose size limit is not negative: 413 exactly when the body is longer than the
    limit, 409 exactly when the body fits and the identifier holds data,
    201 exactly when the body fits and the identifier is free; only a 201
    changes the store, and it stores the whole body with the time of the
    request. *)
Theorem put_answers id chunks now s :
  id <> EmptyString -> all_chars is_hex id = true -> 0 <= maxSize s ->
  let r := handleRequest "PUT" ("/transfer/" +:+ id) chunks now s in
  let body := concat chunks in
  (status r.1 = 413 <-> Z.of_nat (length body) > maxSize s)
  /\ (status r.1 = 409
      <-> Z.of_nat (length body) <= maxSize s /\ is_Some (entries s !! id))
  /\ (status r.1 = 201
      <-> Z.of_nat (length body) <= maxSize s /\ entries s !! id = None)
  /\ (status r.1 = 413 \/ status r.1 = 409 \/ status r.1 = 201)
  /\ (status r.1 <> 201 -> r.2 = s)
  /\ (status r.1 = 201 ->
      r.1 = mkResponse 201 (JsonStored (length body))
      /\ r.2 = with_entries s (<[id := mkEntry body now None]> (entries s))).
Proof.
  intros Hne Hhex Hmax. cbv zeta.
  rewrite handleRequest_route by done. cbn [bool_decide decide_rel].
  rewrite bool_decide_eq_true_2 by done.
  unfold handlePut. rewrite ClientFacts.handlePut_whole by done.
  destruct (decide (Z.of_nat (length (concat chunks)) > maxSize s)) as [Hbig|Hfit].
  { rewrite bool_decide_eq_true_2 by done. cbn.
    split; [done|]. split; [split; [done|intros [? _]; lia]|].
    split; [split; [done|intros [? _]; lia]|].
    split; [by left|]. split; done. }
  rewrite bool_decide_eq_false_2 by done.
  destruct (entries s !! id) as [e|] eqn:E.
  - rewrite bool_decide_eq_true_2 by by eexists. cbn.
    split; [split; [done|lia]|].
    split; [split; [intros _; split; [lia|by eexists]|done]|].
    split; [split; [done|by intros [_ ?]]|].
    split; [by right; left|]. split; done.
  - rewrite bool_decide_eq_false_2 by (by intros [? ?]). cbn.
    split; [split; [done|lia]|].
    split; [split; [done|by intros [_ [? ?]]]|].
    split; [split; [intros _; split; [lia|done]|done]|].
    split; [by right; right|]. split; done.
Qed.

Lemma put_answers_witness :
  let s := new (mkOptions (Some 1) None None) in
  let r := handleRequest "PUT" ("/transfer/" +:+ "ab") [[x68]; [x69]] 0 s in
  let body := concat [[x68]; [x69]] in
  (status r.1 = 413 <-> Z.of_nat (length body) > maxSize s)
  /\ (status r.1 = 409
      <-> Z.of_nat (length body) <= maxSize s /\ is_Some (entries s !! "ab"%string))
  /\ (status r.1 = 201
      <-> Z.of_nat (length body) <= maxSize s /\ entries s !! "ab"%string = None)
  /\ (status r.1 = 413 \/ status r.1 = 409 \/ status r.1 = 201)
  /\ (status r.1 <> 201 -> r.2 = s)
  /\ (status r.1 = 201 ->
      r.1 = mkResponse 201 (JsonStored (length body))
      /\ r.2 = with_entries s (<[("ab"%string) := mkEntry body 0 None]> (entries s))).
Proof.
  cbv zeta.
  apply (put_answers "ab" [[x68]; [x69]] 0 (new (mkOptions (Some 1) None None)));
    [discriminate | reflexivity | cbn; lia].
Defined.

(** Over the wire a transfer is picked up once: after a [PUT] that is
    answered 201, the first [GET] on the same path answers 200 with
    exactly the bytes that were put and the second answers 404; a
    [DELETE] in place of the first [GET] answers 200 and the [GET] after
    it 404. *)
Theorem transfer_picked_up_once id chunks now s :
  id <> EmptyString -> all_chars is_hex id = true ->
  Z.of_nat (length (concat chunks)) <= maxSize s ->
  entries s !! id = None ->
  let path := "/transfer/" +:+ id in
  let s1 := (handleRequest "PUT" path chunks now s).2 in
  let get1 := handleRequest "GET" path [] now s1 in
  let del1 := handleRequest "DELETE" path [] now s1 in
  status (handleRequest "PUT" path chunks now s).1 = 201
  /\ get1 = (mkResponse 200 (Bytes (concat chunks)), s)
  /\ (handleRequest "GET" path [] now get1.2).1
     = mkResponse 404 (JsonError "Transfer not found or already retrieved")
  /\ del1 = (mkResponse 200 JsonOk, s)
  /\ (handleRequest "GET" path [] now del1.2).1
     = mkResponse 404 (JsonError "Transfer not found or already retrieved").
Proof.
  intros Hne Hhex Hfit Hfree. cbv zeta.
  assert (Hmax : 0 <= maxSize s) by lia.
  assert (Hget0 : handleRequest "GET" ("/transfer/" +:+ id) [] now s
                  = (mkResponse 404
                       (JsonError "Transfer not found or already retrieved"), s)).
  { rewrite handleRequest_route by done. cbn [bool_decide decide_rel].
    rewrite bool_decide_eq_false_2 by done. rewrite bool_decide_eq_true_2 by done.
    unfold handleGet, Relay.handleGet. by rewrite (StoreFacts.get_absent id s Hfree). }
  assert (Hput : handleRequest "PUT" ("/transfer/" +:+ id) chunks now s
                 = (mkResponse 201 (JsonStored (length (concat chunks))),
                    (put id (concat chunks) None now s).2)).
  { rewrite handleRequest_route by done. rewrite bool_decide_eq_true_2 by done.
    unfold handlePut. rewrite ClientFacts.handlePut_whole by done.
    rewrite bool_decide_eq_false_2 by lia.
    rewrite bool_decide_eq_false_2 by (rewrite Hfree; by intros [? ?]).
    cbn. by rewrite (StoreFacts.put_small_fresh id _ None now s Hfit Hfree). }
  rewrite Hput. cbn [fst snd status].
  pose proof (StoreMore.get_after_put id (concat chunks) None now s Hfit Hfree)
    as Hget.
  assert (Hget1 : handleRequest "GET" ("/transfer/" +:+ id) [] now
                    (put id (concat chunks) None now s).2
                  = (mkResponse 200 (Bytes (concat chunks)), s)).
  { rewrite handleRequest_route by done.
    rewrite bool_decide_eq_false_2 by done. rewrite bool_decide_eq_true_2 by done.
    unfold handleGet, Relay.handleGet. by rewrite Hget. }
  assert (Hdel1 : handleRequest "DELETE" ("/transfer/" +:+ id) [] now
                    (put id (concat chunks) None now s).2
                  = (mkResponse 200 JsonOk, s)).
  { rewrite handleRequest_route by done.
    rewrite !bool_decide_eq_false_2 by done. rewrite bool_decide_eq_true_2 by done.
    unfold handleDelete.
    rewrite (StoreFacts.put_small_fresh id _ None now s Hfit Hfree).
    unfold delete. cbn. rewrite lookup_insert_eq.
    rewrite bool_decide_eq_true_2 by by eexists.
    rewrite delete_insert_eq, delete_id by done. by destruct s. }
  rewrite Hget1, Hdel1. cbn [fst snd]. by rewrite Hget0.
Qed.

Lemma transfer_picked_up_once_witness :
  let s := new (mkOptions None None None) in
  let path := "/transfer/" +:+ "ab" in
  let s1 := (handleRequest "PUT" path [[x68]; [x69]] 5 s).2 in
  let get1 := handleRequest "GET" path [] 5 s1 in
  let del1 := handleRequest "DELETE" path [] 5 s1 in
  status (handleRequest "PUT" path [[x68]; [x69]] 5 s).1 = 201
  /\ get1 = (mkResponse 200 (Bytes (concat [[x68]; [x69]])), s)
  /\ (handleRequest "GET" path [] 5 get1.2).1
     = mkResponse 404 (JsonError "Transfer not found or already retrieved")
  /\ del1 = (mkResponse 200 JsonOk, s)
  /\ (handleRequest "GET" path [] 5 del1.2).1
     = mkResponse 404 (JsonError "Transfer not found or already retrieved").
Proof.
  cbv zeta.
  apply (transfer_picked_up_once "ab" [[x68]; [x69]] 5 (new (mkOptions None None None)));
    [discriminate | reflexivity | cbn; lia | reflexivity].
Defined.

End ServerFacts.

(** * More on the envelope and on the relay key *)

Module EnvelopeFacts.
Import NodeCrypto Crypto CryptoFacts.
Local Open Scope nat_scope.

Implicit Types (key iv blob plaintext ct tag : list byte).

Lemma blob_split blob :
  28 <= length blob ->
  blob = blob_iv blob ++ blob_ciphertext blob ++ blob_tag blob
  /\ length (blob_iv blob) = 12 /\ length (blob_tag blob) = 16.
Proof.
  intros H.
  unfold blob_iv, blob_ciphertext, blob_tag, subarray, IV_LENGTH,
    AUTH_TAG_LENGTH.
  rewrite drop_0, Nat.sub_0_r. split; [|split].
  - rewrite <- (take_drop 12 blob) at 1. f_equal.
    rewrite <- (take_drop (length blob - 16 - 12) (drop 12 blob)) at 1.
    f_equal. rewrite drop_drop. f_equal. lia.
  - rewrite length_take. lia.
  - rewrite length_drop. lia.
Qed.

Lemma bxor_same_key (a b k : byte) : bxor (bxor a k) (bxor b k) = bxor a b.
Proof.
  unfold bxor. rewrite !to_N_byte_of_N. unfold byte_of_N. do 2 f_equal.
  change 256%N with (2 ^ 8)%N.
  apply N.bits_inj. intros i.
  destruct (N.lt_ge_cases i 8) as [Hi|Hi].
  - rewrite !N.mod_pow2_bits_low, !N.lxor_spec, !N.mod_pow2_bits_low,
      !N.lxor_spec by done.
    by destruct (N.testbit (Byte.to_N a) i), (N.testbit (Byte.to_N b) i),
      (N.testbit (Byte.to_N k) i).
  - by rewrite !N.mod_pow2_bits_high.
Qed.

Lemma zip_bxor_same_key (l1 l2 ks : list byte) :
  zip_with bxor (zip_with bxor l1 ks) (zip_with bxor l2 ks)
  = zip_with bxor l1 (zip_with (fun b _ => b) l2 ks).
Proof.
  revert l2 ks. induction l1 as [|a l1 IH]; intros [|b l2] [|k ks]; simpl;
    try done.
  by rewrite bxor_same_key, IH.
Qed.

Lemma gcm_keystream_same_length key iv (l : list byte) :
  zip_with (fun b (_ : byte) => b) l (gcm_keystream key iv 0 (length l)) = l.
Proof.
  assert (G : forall (l ks : list byte), length l <= length ks ->
            zip_with (fun b (_ : byte) => b) l ks = l).
  { clear. induction l as [|a l IH]; intros [|k ks] Hlen; simpl in *;
      try done; try lia. rewrite IH; [done|lia]. }
  apply G. by rewrite gcm_keystream_length.
Qed.

(** [decrypt] opens exactly what [encrypt] seals: a blob opens to a
    plaintext under a key if and only if [encrypt] makes that blob of that
    plaintext under that key for some 12-byte nonce. *)
Theorem decrypt_opens_what_encrypt_seals blob key plaintext :
  decrypt blob key = Ok plaintext
  <-> exists iv, length iv = 12 /\ encrypt iv plaintext key = Ok blob.
Proof.
  split.
  - intros Hd.
    destruct (decide (length blob < 28)) as [Hs|Hs].
    { by rewrite decrypt_short in Hd. }
    rewrite decrypt_unfold in Hd by lia.
    destruct (decide (length key = 32)) as [Hk|Hk];
      [rewrite bool_decide_eq_true_2 in Hd by done
      |by rewrite bool_decide_eq_false_2 in Hd by done].
    destruct (decide (blob_tag blob
                      = gcm_tag key (blob_iv blob) (blob_ciphertext blob)))
      as [Ht|Ht]; [|by rewrite bool_decide_eq_false_2 in Hd by done].
    rewrite bool_decide_eq_true_2 in Hd by done. injection Hd as Hp.
    destruct (blob_split blob) as (Hb & Hiv & _); [lia|].
    exists (blob_iv blob). split; [done|].
    rewrite encrypt_envelope by done. f_equal.
    assert (Hct : ciphertext_of key (blob_iv blob) plaintext
                  = blob_ciphertext blob).
    { unfold ciphertext_of. rewrite <- Hp.
      rewrite length_zip_with_l_eq by (by rewrite gcm_keystream_length).
      apply zip_bxor_cancel. by rewrite gcm_keystream_length. }
    unfold envelope_of. rewrite Hct, <- Ht. by rewrite <- Hb.
  - intros (iv & Hiv & He). rewrite encrypt_unfold in He.
    destruct (decide (length key = 32)) as [Hk|Hk];
      [rewrite bool_decide_eq_true_2 in He by done
      |by rewrite bool_decide_eq_false_2 in He by done].
    injection He as <-. by apply decrypt_envelope_of.
Qed.

(** Under one key an envelope has one origin: the nonce is its first
    twelve bytes, in the clear, and two calls of [encrypt] that return the
    same envelope were given the same nonce and the same plaintext. *)
Theorem envelope_has_one_origin iv1 iv2 p1 p2 key blob :
  length iv1 = 12 -> length iv2 = 12 ->
  encrypt iv1 p1 key = Ok blob -> encrypt iv2 p2 key = Ok blob ->
  iv1 = take 12 blob /\ iv1 = iv2 /\ p1 = p2.
Proof.
  intros H1 H2 E1 E2.
  assert (Hk : length key = 32).
  { rewrite encrypt_unfold in E1.
    destruct (decide (length key = 32)) as [Hk|Hk]; [done|].
    by rewrite bool_decide_eq_false_2 in E1 by done. }
  pose proof (decrypt_envelope_of iv1 p1 key H1 Hk) as D1.
  pose proof (decrypt_envelope_of iv2 p2 key H2 Hk) as D2.
  rewrite encrypt_envelope in E1, E2 by done.
  injection E1 as E1. injection E2 as E2.
  rewrite E1 in D1. rewrite E2 in D2.
  assert (T1 : take 12 blob = iv1).
  { rewrite <- E1. unfold envelope_of. by rewrite take_app_length'. }
  assert (T2 : take 12 blob = iv2).
  { rewrite <- E2. unfold envelope_of. by rewrite take_app_length'. }
  split; [done|]. split; congruence.
Qed.

Lemma envelope_has_one_origin_witness :
  let iv := repeat x00 12 in
  let key := repeat x07 32 in
  iv = take 12 (envelope_of key iv [x68; x69]) /\ iv = iv
  /\ [x68; x69] = [x68; x69].
Proof.
  cbv zeta.
  apply (envelope_has_one_origin (repeat x00 12) (repeat x00 12)
           [x68; x69] [x68; x69] (repeat x07 32));
    try reflexivity; by apply encrypt_envelope.
Defined.

(** A nonce used twice under one key gives the plaintexts away: the
    ciphertexts of two plaintexts of one length differ exactly where the
    plaintexts differ, bit for bit.  [encrypt] leaves it to the nonce it is
    given to be fresh. *)
Theorem repeated_nonce_leaks_difference iv key p1 p2 blob1 blob2 :
  length iv = 12 -> length p1 = length p2 ->
  encrypt iv p1 key = Ok blob1 -> encrypt iv p2 key = Ok blob2 ->
  zip_with bxor (blob_ciphertext blob1) (blob_ciphertext blob2)
  = zip_with bxor p1 p2.
Proof.
  intros Hiv Hlen E1 E2.
  assert (Hk : length key = 32).
  { rewrite encrypt_unfold in E1.
    destruct (decide (length key = 32)) as [Hk|Hk]; [done|].
    by rewrite bool_decide_eq_false_2 in E1 by done. }
  rewrite encrypt_envelope in E1, E2 by done.
  injection E1 as <-. injection E2 as <-. unfold envelope_of.
  destruct (blob_parts iv (ciphertext_of key iv p1)
              (gcm_tag key iv (ciphertext_of key iv p1)) Hiv
              (gcm_tag_length _ _ _)) as (_ & -> & _).
  destruct (blob_parts iv (ciphertext_of key iv p2)
              (gcm_tag key iv (ciphertext_of key iv p2)) Hiv
              (gcm_tag_length _ _ _)) as (_ & -> & _).
  unfold ciphertext_of. rewrite Hlen, zip_bxor_same_key.
  by rewrite gcm_keystream_same_length.
Qed.

Lemma repeated_nonce_leaks_difference_witness :
  let iv := repeat x00 12 in
  let key := repeat x07 32 in
  zip_with bxor (blob_ciphertext (envelope_of key iv [x68; x69]))
    (blob_ciphertext (envelope_of key iv [x6f; x6b]))
  = zip_with bxor [x68; x69] [x6f; x6b].
Proof.
  cbv zeta.
  apply (repeated_nonce_leaks_difference (repeat x00 12) (repeat x07 32)
           [x68; x69] [x6f; x6b]);
    try reflexivity; by apply encrypt_envelope.
Defined.

End EnvelopeFacts.

Module KeyFacts.
Import NodeCrypto Crypto CryptoFacts CodesFacts.
Local Open Scope nat_scope.

Lemma hex_digits_of_byte (b : byte) :
  Server.is_hex (hex_digit (Byte.to_N b / 16)) = true
  /\ Server.is_hex (hex_digit (Byte.to_N b mod 16)) = true
  /\ byte_of_N (16 * unhex_digit (hex_digit (Byte.to_N b / 16))
                + unhex_digit (hex_digit (Byte.to_N b mod 16))) = b.
Proof. destruct b; vm_compute; done. Qed.

Lemma to_hex_is_hex (buf : list byte) :
  all_chars Server.is_hex (to_hex buf) = true.
Proof.
  induction buf as [|b buf IH]; [done|].
  destruct (hex_digits_of_byte b) as (H1 & H2 & _).
  cbn [to_hex all_chars]. by rewrite H1, H2, IH.
Qed.

Lemma to_hex_length (buf : list byte) :
  String.length (to_hex buf) = 2 * length buf.
Proof. induction buf as [|b buf IH]; cbn [to_hex String.length length]; lia. Qed.

Lemma bytes_to_hex (buf : list byte) : bytes (to_hex buf) = buf.
Proof.
  induction buf as [|b buf IH]; [done|].
  destruct (hex_digits_of_byte b) as (_ & _ & H).
  unfold bytes in *. cbn [to_hex unhex map]. by rewrite H, IH.
Qed.

Lemma to_hex_inj (a b : list byte) : to_hex a = to_hex b -> a = b.
Proof. intros H. by rewrite <- (bytes_to_hex a), <- (bytes_to_hex b), H. Qed.

Section RelayKey.

Variable pbkdf2Sync : string -> string -> Z -> nat -> string -> list byte.

Hypothesis pbkdf2Sync_length :
  forall password salt iterations keylen digest,
    length (pbkdf2Sync password salt iterations keylen digest) = keylen.

(** The relay key of a code is 64 lower-case hexadecimal digits, so the
    path [/transfer/<relay key>] that [upload] and [download] ask for is
    one the relay routes to its transfer handlers, with the relay key as
    identifier; and two codes share a relay key only when PBKDF2 gives the
    same bytes for both. *)
Theorem relay_key_is_routed code :
  String.length (deriveRelayKey pbkdf2Sync code) = 64
  /\ all_chars Server.is_hex (deriveRelayKey pbkdf2Sync code) = true
  /\ Server.match_route ("/transfer/" +:+ deriveRelayKey pbkdf2Sync code)
     = Some (deriveRelayKey pbkdf2Sync code)
  /\ forall code',
       deriveRelayKey pbkdf2Sync code = deriveRelayKey pbkdf2Sync code'
       <-> pbkdf2Sync code RELAY_SALT PBKDF2_ITERATIONS KEY_LENGTH "sha256"
           = pbkdf2Sync code' RELAY_SALT PBKDF2_ITERATIONS KEY_LENGTH "sha256".
Proof.
  unfold deriveRelayKey.
  set (key := pbkdf2Sync code RELAY_SALT PBKDF2_ITERATIONS KEY_LENGTH "sha256").
  assert (Hlen : String.length (to_hex key) = 64).
  { rewrite to_hex_length. unfold key. by rewrite pbkdf2Sync_length. }
  split; [done|]. split; [apply to_hex_is_hex|]. split.
  - apply ServerFacts.match_route_Some. split; [done|].
    split; [|apply to_hex_is_hex].
    intros E. by rewrite E in Hlen.
  - intros code'. split; [apply to_hex_inj|by intros ->].
Qed.

(** The requests of [upload] and [download] reach the handlers the client
    is modelled against: on the path of a relay key the request handler
    answers a [PUT] with the status and the store of [handlePut], and a
    [GET] with the status, the bytes and the store of [handleGet]. *)
Theorem client_requests_reach_handlers code chunks now (s : TransferStore.t) :
  let relayKey := deriveRelayKey pbkdf2Sync code in
  let put := Server.handleRequest "PUT" ("/transfer/" +:+ relayKey) chunks now s in
  let get := Server.handleRequest "GET" ("/transfer/" +:+ relayKey) [] now s in
  (Server.status put.1, put.2)
  = ((Relay.handlePut relayKey chunks now s).1.1,
     (Relay.handlePut relayKey chunks now s).2)
  /\ (Server.status get.1, get.2)
     = ((Relay.handleGet relayKey s).1.1, (Relay.handleGet relayKey s).2)
  /\ (Server.status get.1 = 200%Z ->
      Server.body get.1 = Server.Bytes (Relay.handleGet relayKey s).1.2).
Proof.
  cbv zeta. unfold deriveRelayKey.
  set (key := pbkdf2Sync code RELAY_SALT PBKDF2_ITERATIONS KEY_LENGTH "sha256").
  assert (Hne : to_hex key <> EmptyString).
  { intros E. pose proof (to_hex_length key) as Hlen.
    unfold key in Hlen. rewrite pbkdf2Sync_length in Hlen.
    fold key in Hlen. by rewrite E in Hlen. }
  rewrite !ServerFacts.handleRequest_route by (done || apply to_hex_is_hex).
  rewrite bool_decide_eq_true_2 by done.
  rewrite bool_decide_eq_false_2 by done.
  rewrite bool_decide_eq_true_2 by done.
  unfold Server.handlePut, Server.handleGet.
  destruct (Relay.handlePut (to_hex key) chunks now s) as [[c e] s1].
  split; [by case_bool_decide; subst|].
  unfold Relay.handleGet.
  by destruct (TransferStore.get (to_hex key) s) as [[entry|] s2].
Qed.

End RelayKey.

Lemma relay_key_is_routed_witness :
  let kdf := fun (password salt : string) (iterations : Z) (keylen : nat)
                 (digest : string) => repeat x07 keylen in
  String.length (deriveRelayKey kdf "42-banana-thunder") = 64
  /\ all_chars Server.is_hex (deriveRelayKey kdf "42-banana-thunder") = true
  /\ Server.match_route ("/transfer/" +:+ deriveRelayKey kdf "42-banana-thunder")
     = Some (deriveRelayKey kdf "42-banana-thunder")
  /\ forall code',
       deriveRelayKey kdf "42-banana-thunder" = deriveRelayKey kdf code'
       <-> kdf "42-banana-thunder" RELAY_SALT PBKDF2_ITERATIONS KEY_LENGTH
             "sha256"
           = kdf code' RELAY_SALT PBKDF2_ITERATIONS KEY_LENGTH "sha256".
Proof.
  cbv zeta.
  apply (relay_key_is_routed (fun _ _ _ keylen _ => repeat x07 keylen)).
  intros. apply repeat_length.
Defined.

Lemma client_requests_reach_handlers_witness :
  let kdf := fun (password salt : string) (iterations : Z) (keylen : nat)
                 (digest : string) => repeat x07 keylen in
  let s := TransferStore.new (mkOptions None None None) in
  let relayKey := deriveRelayKey kdf "42-banana-thunder" in
  let put := Server.handleRequest "PUT" ("/transfer/" +:+ relayKey) [[x68]] 0%Z s in
  let get := Server.handleRequest "GET" ("/transfer/" +:+ relayKey) [] 0%Z s in
  (Server.status put.1, put.2)
  = ((Relay.handlePut relayKey [[x68]] 0%Z s).1.1,
     (Relay.handlePut relayKey [[x68]] 0%Z s).2)
  /\ (Server.status get.1, get.2)
     = ((Relay.handleGet relayKey s).1.1, (Relay.handleGet relayKey s).2)
  /\ (Server.status get.1 = 200%Z ->
      Server.body get.1 = Server.Bytes (Relay.handleGet relayKey s).1.2).
Proof.
  cbv zeta.
  apply (client_requests_reach_handlers (fun _ _ _ keylen _ => repeat x07 keylen)).
  intros. apply repeat_length.
Defined.

End KeyFacts.

(** * Properties of the command line *)

Module CliFacts.
Import Cli.
Local Open Scope nat_scope.


Definition is_flag (a : string) : bool :=
  bool_decide (a ∈ ["--relay"; "-r"; "--output"; "-o"; "--code"; "-c"]%string).

(** ** A command line, piece by piece

    What the arguments after the command are made of: a word, an option
    the program does not know, or one of the three flags, long or short,
    with the argument that follows it. *)
Inductive Item : Type :=
| Word (a : string)
| Unknown (a : string)
| RelayFlag (short : bool) (v : string)
| OutputFlag (short : bool) (v : string)
| CodeFlag (short : bool) (v : string).

Definition relay_name (short : bool) : string :=
  if short then "-r"%string else "--relay"%string.
Definition output_name (short : bool) : string :=
  if short then "-o"%string else "--output"%string.
Definition code_name (short : bool) : string :=
  if short then "-c"%string else "--code"%string.

Definition render (i : Item) : list string :=
  match i with
  | Word a => [a]
  | Unknown a => [a]
  | RelayFlag short v => [relay_name short; v]
  | OutputFlag short v => [output_name short; v]
  | CodeFlag short v => [code_name short; v]
  end.

Definition well_formed (i : Item) : Prop :=
  match i with
  | Word a => startsWith_dash a = false
  | Unknown a => startsWith_dash a = true /\ is_flag a = false
  | _ => True
  end.

Definition words (items : list Item) : list string :=
  omap (fun i => match i with Word a => Some a | _ => None end) items.

(** The flags after the items, read left to right: a later value of a
    flag replaces an earlier one. *)
Definition set_flag (flags : Flags) (i : Item) : Flags :=
  match i with
  | RelayFlag _ v => mkFlags (Some v) (output flags) (code flags)
  | OutputFlag _ v => mkFlags (relay flags) (Some v) (code flags)
  | CodeFlag _ v => mkFlags (relay flags) (output flags) (Some v)
  | _ => flags
  end.

Definition flags_of (items : list Item) : Flags :=
  fold_left set_flag items (mkFlags None None None).

Lemma parseFlags_from_word a rest positional flags :
  startsWith_dash a = false ->
  parseFlags_from (a :: rest) positional flags
  = parseFlags_from rest (positional ++ [a]) flags.
Proof.
  intros H. cbn [parseFlags_from].
  rewrite !bool_decide_eq_false_2 by (intros ->; discriminate).
  cbn [orb]. by rewrite H.
Qed.

Lemma parseFlags_from_unknown a rest positional flags :
  startsWith_dash a = true -> is_flag a = false ->
  parseFlags_from (a :: rest) positional flags
  = parseFlags_from rest positional flags.
Proof.
  intros H F. cbn [parseFlags_from].
  apply bool_decide_eq_false in F.
  rewrite !bool_decide_eq_false_2 by (intros ->; apply F; set_solver).
  cbn [orb]. by rewrite H.
Qed.

Ltac decide_names :=
  repeat match goal with
    | |- context [bool_decide (?a = ?b)] =>
        first [ rewrite (bool_decide_eq_true_2 (a = b)) by done
              | rewrite (bool_decide_eq_false_2 (a = b)) by done ]
    end;
  cbn [orb].

Lemma parseFlags_from_relay short v rest positional flags :
  parseFlags_from (relay_name short :: v :: rest) positional flags
  = parseFlags_from rest positional
      (mkFlags (Some v) (output flags) (code flags)).
Proof. destruct short; cbn [parseFlags_from relay_name]; by decide_names. Qed.

Lemma parseFlags_from_output short v rest positional flags :
  parseFlags_from (output_name short :: v :: rest) positional flags
  = parseFlags_from rest positional
      (mkFlags (relay flags) (Some v) (code flags)).
Proof. destruct short; cbn [parseFlags_from output_name]; by decide_names. Qed.

Lemma parseFlags_from_code short v rest positional flags :
  parseFlags_from (code_name short :: v :: rest) positional flags
  = parseFlags_from rest positional
      (mkFlags (relay flags) (output flags) (Some v)).
Proof. destruct short; cbn [parseFlags_from code_name]; by decide_names. Qed.

Lemma parseFlags_from_last short positional flags :
  parseFlags_from [relay_name short] positional flags
  = (positional, mkFlags (Some EmptyString) (output flags) (code flags))
  /\ parseFlags_from [output_name short] positional flags
     = (positional, mkFlags (relay flags) (Some EmptyString) (code flags))
  /\ parseFlags_from [code_name short] positional flags
     = (positional, mkFlags (relay flags) (output flags) (Some EmptyString)).
Proof.
  destruct short;
    cbn [parseFlags_from relay_name output_name code_name];
    by decide_names.
Qed.

Lemma parseFlags_from_items items :
  Forall well_formed items ->
  forall tail positional flags,
    parseFlags_from (concat (map render items) ++ tail) positional flags
    = parseFlags_from tail (positional ++ words items)
        (fold_left set_flag items flags).
Proof.
  induction 1 as [|i items Hi _ IH]; intros tail positional flags.
  - cbn. by rewrite app_nil_r.
  - cbn [map concat fold_left]. rewrite <- app_assoc.
    destruct i as [a|a|short v|short v|short v];
      cbn [render app well_formed words omap set_flag] in *;
      fold (words items).
    + rewrite parseFlags_from_word, IH by done. by rewrite <- app_assoc.
    + destruct Hi as [Hd Hf]. by rewrite parseFlags_from_unknown, IH.
    + by rewrite parseFlags_from_relay, IH.
    + by rewrite parseFlags_from_output, IH.
    + by rewrite parseFlags_from_code, IH.
Qed.

(** What [parseFlags] makes of a command line: the words, in their order,
    are the positional arguments; an unknown option is dropped without a
    message; a flag, long or short, takes the argument after it as its
    value, whatever that argument looks like, and the last value of a flag
    is the one that counts; a flag that ends the command line gets the
    empty string. *)
Theorem parseFlags_spec items :
  Forall well_formed items ->
  parseFlags (concat (map render items)) = (words items, flags_of items)
  /\ (forall short,
        parseFlags (concat (map render items) ++ [relay_name short])
        = (words items,
           mkFlags (Some EmptyString) (output (flags_of items))
             (code (flags_of items))))
  /\ (forall short,
        parseFlags (concat (map render items) ++ [output_name short])
        = (words items,
           mkFlags (relay (flags_of items)) (Some EmptyString)
             (code (flags_of items))))
  /\ (forall short,
        parseFlags (concat (map render items) ++ [code_name short])
        = (words items,
           mkFlags (relay (flags_of items)) (output (flags_of items))
             (Some EmptyString))).
Proof.
  intros Hwf. unfold parseFlags, flags_of.
  split; [|split; [|split]].
  - rewrite <- (app_nil_r (concat _)). by rewrite parseFlags_from_items.
  - intros short. rewrite parseFlags_from_items by done.
    apply parseFlags_from_last.
  - intros short. rewrite parseFlags_from_items by done.
    apply parseFlags_from_last.
  - intros short. rewrite parseFlags_from_items by done.
    apply parseFlags_from_last.
Qed.

Lemma parseFlags_spec_witness :
  let items := [CodeFlag false "--relay"; Word "notes.txt"; Unknown "--fast";
                RelayFlag true "http://a"; CodeFlag true "7-red-fox"]%string in
  parseFlags (concat (map render items)) = (words items, flags_of items)
  /\ (forall short,
        parseFlags (concat (map render items) ++ [relay_name short])
        = (words items,
           mkFlags (Some EmptyString) (output (flags_of items))
             (code (flags_of items))))
  /\ (forall short,
        parseFlags (concat (map render items) ++ [output_name short])
        = (words items,
           mkFlags (relay (flags_of items)) (Some EmptyString)
             (code (flags_of items))))
  /\ (forall short,
        parseFlags (concat (map render items) ++ [code_name short])
        = (words items,
           mkFlags (relay (flags_of items)) (output (flags_of items))
             (Some EmptyString))).
Proof.
  cbv zeta.
  apply (parseFlags_spec
           [CodeFlag false "--relay"; Word "notes.txt"; Unknown "--fast";
            RelayFlag true "http://a"; CodeFlag true "7-red-fox"]%string).
  repeat constructor.
Defined.





End CliFacts.

(** * Properties of the archive parser *)

Module SlurpFacts.
Import Slurp.
Local Open Scope nat_scope.

(** ** Lines *)

Definition no_LF (s : JSString) : Prop := LF ∉ s.

Lemma split_lines_cons s : exists l ls, split_lines s = l :: ls.
Proof.
  induction s as [|c s (l & ls & IH)]; cbn [split_lines]; [by eexists _, _|].
  destruct (c =? LF)%N; [by eexists _, _|].
  rewrite IH. by eexists _, _.
Qed.

Lemma join_lines_cons l l' ls :
  join_lines (l :: l' :: ls) = l ++ LF :: join_lines (l' :: ls).
Proof. done. Qed.

Lemma join_lines_char c l ls :
  join_lines ((c :: l) :: ls) = c :: join_lines (l :: ls).
Proof. by destruct ls. Qed.

Lemma join_split_lines s : join_lines (split_lines s) = s.
Proof.
  induction s as [|c s IH]; [done|]. cbn [split_lines].
  destruct (split_lines_cons s) as (l & ls & E). rewrite E in *.
  destruct (N.eqb_spec c LF) as [->|Hc].
  - by rewrite join_lines_cons, IH.
  - by rewrite join_lines_char, IH.
Qed.

Lemma split_lines_line l s :
  no_LF l -> split_lines (l ++ LF :: s) = l :: split_lines s.
Proof.
  unfold no_LF. induction l as [|c l IH]; intros H.
  - cbn [app split_lines]. by rewrite N.eqb_refl.
  - apply not_elem_of_cons in H as [Hc H].
    cbn [app split_lines].
    destruct (N.eqb_spec c LF) as [->|_]; [done|]. by rewrite IH.
Qed.

Lemma split_lines_last l : no_LF l -> split_lines l = [l].
Proof.
  unfold no_LF. induction l as [|c l IH]; intros H; [done|].
  apply not_elem_of_cons in H as [Hc H]. cbn [split_lines].
  destruct (N.eqb_spec c LF) as [->|_]; [done|]. by rewrite IH.
Qed.

(** [split('\n')] and [join('\n')] undo each other: joining the lines of
    a text gives the text back, and splitting the join of one or more
    lines, none of which holds a line feed, gives the lines back. *)
Theorem split_join_lines :
  (forall s, join_lines (split_lines s) = s)
  /\ (forall ls, ls <> [] -> Forall no_LF ls ->
        split_lines (join_lines ls) = ls).
Proof.
  split; [apply join_split_lines|].
  intros ls Hne Hls. induction Hls as [|l ls Hl Hls IH]; [done|].
  destruct ls as [|l' ls]; [by apply split_lines_last|].
  rewrite join_lines_cons, split_lines_line by done.
  by rewrite IH.
Qed.

(** ** The two headers *)

Lemma span_whole p (a b : JSString) :
  forallb p a = true ->
  match b with c :: _ => p c = false | [] => True end ->
  span p (a ++ b) = (a, b).
Proof.
  intros Ha Hb. induction a as [|c a IH]; cbn [app span].
  - destruct b as [|c b]; [done|]. cbn [span]. by rewrite Hb.
  - cbn [forallb] in Ha. apply andb_true_iff in Ha as [Hc Ha].
    by rewrite Hc, IH.
Qed.

Lemma strip_prefix_app (p s : JSString) : strip_prefix p (p ++ s) = Some s.
Proof.
  induction p as [|a p IH]; [done|]. cbn [app strip_prefix].
  by rewrite N.eqb_refl.
Qed.

(** A run of white space, as [\s+] takes it: one or more code units of
    the class [\s]. *)
Definition gap_ok (g : JSString) : Prop :=
  g <> [] /\ forallb is_space g = true.

(** A path or a marker, as ['([^']+)'] takes it: one or more code units,
    none of them a quote. *)
Definition name_ok (s : JSString) : Prop :=
  s <> [] /\ forallb not_quote s = true.

Definition starts_outside (p : N -> bool) (s : JSString) : Prop :=
  match s with c :: _ => p c = false | [] => True end.

Lemma spaces_gap g s :
  gap_ok g -> starts_outside is_space s -> spaces (g ++ s) = Some s.
Proof.
  intros [Hne Hg] Hs. unfold spaces. rewrite (span_whole is_space g s Hg Hs).
  cbn [fst snd]. by destruct g.
Qed.

Lemma quoted_name p rest :
  name_ok p -> quoted (QUOTE :: p ++ QUOTE :: rest) = Some (p, rest).
Proof.
  intros [Hne Hq]. unfold quoted. rewrite N.eqb_refl.
  rewrite (span_whole not_quote p (QUOTE :: rest) Hq) by done.
  cbn [fst snd]. rewrite N.eqb_refl. by destruct p.
Qed.

(** The runs of white space of a header, in their order; the first is the
    one between [base64] and [-d], which [cat] does not have. *)
Record Gaps : Type := mkGaps {
  after_base64 : JSString;
  after_command : JSString;
  after_gt : JSString;
  after_path : JSString;
  after_lt : JSString;
}.

Definition gaps_ok (g : Gaps) : Prop :=
  gap_ok (after_base64 g) /\ gap_ok (after_command g) /\ gap_ok (after_gt g)
  /\ gap_ok (after_path g) /\ gap_ok (after_lt g).

Definition redirect_text (g : Gaps) (p marker : JSString) : JSString :=
  after_command g ++ lit ">" ++ after_gt g ++ QUOTE :: p
    ++ QUOTE :: after_path g ++ lit "<<" ++ after_lt g ++ QUOTE :: marker
    ++ [QUOTE].

(** The line that opens a here-document: [cat > 'p' << 'marker'] for a
    text file, [base64 -d > 'p' << 'marker'] for a binary one, with the
    runs [g] of white space between its words. *)
Definition header (binary : bool) (g : Gaps) (p marker : JSString) : JSString :=
  (if binary then lit "base64" ++ after_base64 g ++ lit "-d" else lit "cat")
    ++ redirect_text g p marker.

Ltac step :=
  rewrite ?strip_prefix_app; cbn [mbind option_bind].

Lemma redirect_redirect_text g p marker :
  gaps_ok g -> name_ok p -> name_ok marker ->
  redirect (redirect_text g p marker) = Some (p, marker).
Proof.
  intros (_ & G1 & G2 & G3 & G4) Hp Hm. unfold redirect, redirect_text.
  rewrite spaces_gap by done. step. step.
  rewrite spaces_gap by done. step.
  rewrite quoted_name by done. step.
  rewrite spaces_gap by done. step. step.
  rewrite spaces_gap by done. step.
  by rewrite quoted_name by done.
Qed.

Lemma cat_header_header g p marker :
  gaps_ok g -> name_ok p -> name_ok marker ->
  cat_header (header false g p marker) = Some (p, marker).
Proof.
  intros Hg Hp Hm. unfold cat_header, header. step.
  by apply redirect_redirect_text.
Qed.

Lemma base64_header_header g p marker :
  gaps_ok g -> name_ok p -> name_ok marker ->
  cat_header (header true g p marker) = None
  /\ base64_header (header true g p marker) = Some (p, marker).
Proof.
  intros Hg Hp Hm. split; [done|].
  unfold base64_header, header. rewrite <- !app_assoc. step.
  pose proof Hg as (G0 & _). rewrite spaces_gap by done. step. step.
  by apply redirect_redirect_text.
Qed.

(** The white space of a header need not be the space of ASCII: here it
    is U+2003, U+00A0, a tab and U+3000. *)
Example header_with_other_spaces :
  cat_header (lit "cat" ++ [8195%N] ++ lit ">" ++ [160%N] ++ lit "'x'"
                ++ [9%N] ++ lit "<<" ++ [12288%N] ++ lit "'Y'")
  = Some (lit "x", lit "Y").
Proof. reflexivity. Qed.

(** ** The loops *)

Lemma until_marker_found marker lines rest :
  marker ∉ lines ->
  until_marker marker (lines ++ marker :: rest) = (lines, rest).
Proof.
  induction lines as [|l lines IH]; intros H; cbn [app until_marker].
  - by rewrite bool_decide_eq_true_2 by done.
  - apply not_elem_of_cons in H as [Hl H].
    rewrite bool_decide_eq_false_2 by done. by rewrite IH.
Qed.

Lemma until_marker_missing marker lines :
  marker ∉ lines -> until_marker marker lines = (lines, []).
Proof.
  induction lines as [|l lines IH]; intros H; cbn [until_marker]; [done|].
  apply not_elem_of_cons in H as [Hl H].
  rewrite bool_decide_eq_false_2 by done. by rewrite IH.
Qed.

Lemma until_marker_length marker lines :
  length (until_marker marker lines).2 <= length lines.
Proof.
  induction lines as [|l lines IH]; cbn [until_marker length]; [done|].
  destruct (bool_decide (l = marker)); cbn [snd]; lia.
Qed.

(** The outer loop does not depend on its fuel, once there is enough of
    it. *)
Lemma parse_lines_fuel n :
  forall fuel1 fuel2 lines,
    length lines <= n -> n <= fuel1 -> n <= fuel2 ->
    parse_lines fuel1 lines = parse_lines fuel2 lines.
Proof.
  induction n as [|n IH]; intros fuel1 fuel2 [|line rest] Hlen H1 H2;
    cbn [length] in Hlen; try lia.
  - by destruct fuel1, fuel2.
  - by destruct fuel1, fuel2.
  - destruct fuel1 as [|fuel1]; [lia|]. destruct fuel2 as [|fuel2]; [lia|].
    cbn [parse_lines].
    assert (Hrest : parse_lines fuel1 rest = parse_lines fuel2 rest)
      by (apply IH; lia).
    assert (Hm : forall marker,
              parse_lines fuel1 (until_marker marker rest).2
              = parse_lines fuel2 (until_marker marker rest).2).
    { intros marker. pose proof (until_marker_length marker rest).
      apply IH; lia. }
    destruct (cat_header line) as [[p marker]|]; [by rewrite Hm|].
    destruct (base64_header line) as [[p marker]|]; [by rewrite Hm|done].
Qed.

Definition parse (lines : list JSString) : list ParsedFile :=
  parse_lines (length lines) lines.

Lemma parse_cons line rest :
  parse (line :: rest)
  = match cat_header line with
    | Some (p, marker) =>
        mkFile p (join_lines (until_marker marker rest).1) false
        :: parse (until_marker marker rest).2
    | None =>
        match base64_header line with
        | Some (p, marker) =>
            mkFile p (join_lines (until_marker marker rest).1) true
            :: parse (until_marker marker rest).2
        | None => parse rest
        end
    end.
Proof.
  unfold parse. cbn [length parse_lines].
  assert (Hm : forall marker,
            parse_lines (length rest) (until_marker marker rest).2
            = parse_lines (length (until_marker marker rest).2)
                (until_marker marker rest).2).
  { intros marker. pose proof (until_marker_length marker rest).
    by apply (parse_lines_fuel (length (until_marker marker rest).2)). }
  destruct (cat_header line) as [[p marker]|]; [by rewrite Hm|].
  destruct (base64_header line) as [[p marker]|]; [by rewrite Hm|done].
Qed.

(** A line that opens no here-document. *)
Definition plain (line : JSString) : Prop :=
  cat_header line = None /\ base64_header line = None.

Lemma parse_plain lines rest :
  Forall plain lines -> parse (lines ++ rest) = parse rest.
Proof.
  induction 1 as [|l lines [H1 H2] _ IH]; [done|].
  cbn [app]. by rewrite parse_cons, H1, H2.
Qed.

(** ** Here-documents *)

Record Heredoc : Type := mkHeredoc {
  before : list JSString;
  h_binary : bool;
  h_gaps : Gaps;
  h_path : JSString;
  h_marker : JSString;
  h_lines : list JSString;
}.

Definition opening (h : Heredoc) : list JSString :=
  before h
    ++ header (h_binary h) (h_gaps h) (h_path h) (h_marker h) :: h_lines h.

(** The lines of a here-document: whatever comes before it, the header,
    the content, the marker. *)
Definition lines_of (h : Heredoc) : list JSString :=
  opening h ++ [h_marker h].

Definition file_of (h : Heredoc) : ParsedFile :=
  mkFile (h_path h) (join_lines (h_lines h)) (h_binary h).

Definition heredoc_ok (h : Heredoc) : Prop :=
  Forall plain (before h) /\ gaps_ok (h_gaps h) /\ name_ok (h_path h)
  /\ name_ok (h_marker h) /\ h_marker h ∉ h_lines h.

Lemma parse_header binary g p marker rest :
  gaps_ok g -> name_ok p -> name_ok marker ->
  parse (header binary g p marker :: rest)
  = mkFile p (join_lines (until_marker marker rest).1) binary
    :: parse (until_marker marker rest).2.
Proof.
  intros Hg Hp Hm. rewrite parse_cons. destruct binary.
  - destruct (base64_header_header g p marker Hg Hp Hm) as [-> ->]. done.
  - by rewrite cat_header_header.
Qed.

Lemma parse_heredocs hs rest :
  Forall heredoc_ok hs ->
  parse (concat (map lines_of hs) ++ rest) = map file_of hs ++ parse rest.
Proof.
  induction 1 as [|h hs (Hb & Hg & Hp & Hm & Hl) _ IH]; [done|].
  cbn [map concat]. unfold lines_of at 1, opening.
  rewrite <- !app_assoc. rewrite parse_plain by done.
  cbn [app]. rewrite parse_header by done.
  rewrite until_marker_found by done. cbn [fst snd].
  by rewrite IH.
Qed.

(** [parseV1Content] reads back an archive made of here-documents: when
    the lines of the archive are here-documents one after the other, each
    with a header [cat > 'p' << 'M'] or [base64 -d > 'p' << 'M'] whose
    words are set apart by runs of white space, with its own marker that
    none of its content lines equals, with a path and a marker that are
    not empty and hold no quote, and with only lines that open nothing
    before, between and after them, the files it returns are those of the
    here-documents, in order: the path as written, the content lines
    joined by line feeds, binary for [base64 -d].  A content line may
    itself look like a header. *)
Theorem parseV1Content_heredocs archive hs after :
  split_lines archive = concat (map lines_of hs) ++ after ->
  Forall heredoc_ok hs -> Forall plain after ->
  parseV1Content archive = map file_of hs.
Proof.
  intros Hlines Hhs Hafter. unfold parseV1Content. cbv zeta.
  fold (parse (split_lines archive)). rewrite Hlines.
  rewrite parse_heredocs by done.
  rewrite <- (app_nil_r after), parse_plain by done.
  by rewrite app_nil_r.
Qed.

Ltac not_among :=
  let H := fresh in
  intros H; repeat (apply elem_of_cons in H as [H|H]; [discriminate|]);
  by apply elem_of_nil in H.

Ltac all_plain := repeat (constructor; [split; reflexivity|]); try constructor.

Ltac heredocs_ok :=
  repeat (constructor;
          [split; [all_plain|];
           split; [repeat split; (discriminate || reflexivity)|];
           split; [split; [discriminate|reflexivity]|];
           split; [split; [discriminate|reflexivity]|not_among]|]);
  try constructor.

(** The usual spacing of a header, and one with a tab, U+00A0, U+2003,
    U+3000 and two spaces. *)
Definition one_space : Gaps :=
  mkGaps [32%N] [32%N] [32%N] [32%N] [32%N].

Definition odd_spaces : Gaps :=
  mkGaps [9%N] [160%N] [8195%N] [12288%N] [32%N; 32%N].

Lemma parseV1Content_heredocs_witness :
  parseV1Content
    (join_lines
       [lit "#!/bin/sh"; lit "# SLURP v1";
        lit "cat > 'notes/a.txt' << 'END_A'"; lit "hello";
        lit "cat > 'x' << 'Y'"; lit "END_A"; lit "mkdir -p bin";
        header true odd_spaces (lit "../b") (lit "END_B"); lit "aGk=";
        lit "END_B"; lit "exit 0"])
  = [mkFile (lit "notes/a.txt")
       (join_lines [lit "hello"; lit "cat > 'x' << 'Y'"]) false;
     mkFile (lit "../b") (lit "aGk=") true].
Proof.
  apply (parseV1Content_heredocs _
           [mkHeredoc [lit "#!/bin/sh"; lit "# SLURP v1"] false one_space
              (lit "notes/a.txt") (lit "END_A")
              [lit "hello"; lit "cat > 'x' << 'Y'"];
            mkHeredoc [lit "mkdir -p bin"] true odd_spaces (lit "../b")
              (lit "END_B") [lit "aGk="]]
           [lit "exit 0"]).
  - vm_compute. reflexivity.
  - heredocs_ok.
  - all_plain.
Defined.

(** A here-document whose marker never comes takes every line up to the
    end of the archive as its content. *)
Theorem parseV1Content_unterminated archive hs h :
  split_lines archive = concat (map lines_of hs) ++ opening h ->
  Forall heredoc_ok hs -> heredoc_ok h ->
  parseV1Content archive = map file_of hs ++ [file_of h].
Proof.
  intros Hlines Hhs (Hb & Hg & Hp & Hm & Hl). unfold parseV1Content. cbv zeta.
  fold (parse (split_lines archive)). rewrite Hlines.
  rewrite parse_heredocs by done. f_equal. unfold opening.
  rewrite parse_plain by done. rewrite parse_header by done.
  by rewrite until_marker_missing by done.
Qed.

Lemma parseV1Content_unterminated_witness :
  parseV1Content
    (join_lines
       [lit "cat > 'a' << 'END_A'"; lit "one"; lit "END_A";
        lit "set -e"; header true odd_spaces (lit "b") (lit "END_B");
        lit "aGk="; lit "exit 0"])
  = [mkFile (lit "a") (lit "one") false;
     mkFile (lit "b") (join_lines [lit "aGk="; lit "exit 0"]) true].
Proof.
  apply (parseV1Content_unterminated _
           [mkHeredoc [] false one_space (lit "a") (lit "END_A") [lit "one"]]
           (mkHeredoc [lit "set -e"] true odd_spaces (lit "b") (lit "END_B")
              [lit "aGk="; lit "exit 0"])).
  - vm_compute. reflexivity.
  - heredocs_ok.
  - split; [all_plain|].
    split; [repeat split; (discriminate || reflexivity)|].
    split; [split; [discriminate|reflexivity]|].
    split; [split; [discriminate|reflexivity]|not_among].
Defined.

End SlurpFacts.

(** * Properties of the payload of a transfer *)

Module PayloadFacts.
Import Slurp.
Local Open Scope nat_scope.

Lemma indexOf_LF_found (header rest : list byte) :
  x0a ∉ header -> indexOf_LF (header ++ x0a :: rest) = Some (length header).
Proof.
  induction header as [|b header IH]; intros H; cbn [app indexOf_LF length].
  - by rewrite bool_decide_eq_true_2 by done.
  - apply not_elem_of_cons in H as [Hb H].
    rewrite bool_decide_eq_false_2 by done. by rewrite IH.
Qed.

Lemma starts_with_app (needle rest : list byte) :
  starts_with needle (needle ++ rest) = true.
Proof.
  induction needle as [|a needle IH]; [done|]. cbn [app starts_with].
  by rewrite bool_decide_eq_true_2, IH by done.
Qed.

Lemma includes_app (needle pre rest : list byte) :
  includes needle (pre ++ needle ++ rest) = true.
Proof.
  induction pre as [|a pre IH]; cbn [app].
  - pose proof (starts_with_app needle rest) as H.
    destruct (needle ++ rest); cbn [includes]; by rewrite H.
  - cbn [includes]. rewrite IH. apply orb_true_r.
Qed.

Lemma includes_take (needle pre rest : list byte) (n : nat) :
  length pre + length needle <= n ->
  includes needle (take n (pre ++ needle ++ rest)) = true.
Proof.
  intros H. rewrite app_assoc.
  rewrite take_app_ge by (rewrite length_app; lia).
  rewrite <- app_assoc. apply includes_app.
Qed.

Section Unpack.

Variable JSON_name : list byte -> result string.
Variable extractArchive : list byte -> list string.

(** A single file comes out as it went in: when the header that [send]
    put in front of the content holds no line feed and names the file,
    and the payload is not taken for an archive, [receive] writes exactly
    the content under that name and reports the length of the content. *)
Theorem unpack_file_payload header_json content name :
  x0a ∉ header_json -> JSON_name header_json = Ok name ->
  isSlurpArchive (file_payload header_json content) = false ->
  unpack JSON_name extractArchive (file_payload header_json content)
  = Ok (mkReceived [name] "file" (length content) [(name, content)]).
Proof.
  intros Hlf Hname Harch. unfold unpack. rewrite Harch.
  unfold file_payload. rewrite <- app_assoc. cbn [app].
  rewrite indexOf_LF_found by done.
  unfold Crypto.subarray. rewrite drop_0, Nat.sub_0_r.
  rewrite take_app_length, Hname. cbn.
  replace (length header_json + 1) with (S (length header_json)) by lia.
  change (header_json ++ x0a :: content)
    with (header_json ++ [x0a] ++ content).
  rewrite app_assoc.
  rewrite drop_app_length'; [done|]. rewrite length_app. cbn. lia.
Qed.

(** A shell script that mentions SLURP near its top, sent as a single
    file, is taken for a directory: when [#!/bin/sh] and, after it,
    [SLURP] both end within the first 200 bytes of the payload, header
    included, [receive] hands the whole payload, header and all, to the
    archive extractor and writes no file of its own. *)
Theorem script_taken_for_archive header_json content pre mid post :
  content = pre ++ SHEBANG ++ mid ++ SLURP ++ post ->
  length header_json + 1 + length pre + 9 + length mid + 5 <= 200 ->
  unpack JSON_name extractArchive (file_payload header_json content)
  = Ok (mkReceived (extractArchive (file_payload header_json content))
          "directory" (length (file_payload header_json content)) []).
Proof.
  intros -> Hlen. unfold unpack.
  assert (Harch : isSlurpArchive
                    (file_payload header_json
                       (pre ++ SHEBANG ++ mid ++ SLURP ++ post)) = true).
  { unfold isSlurpArchive, file_payload, Crypto.subarray.
    rewrite drop_0, Nat.sub_0_r. apply andb_true_iff. split.
    - rewrite <- !app_assoc.
      rewrite (app_assoc header_json), (app_assoc (header_json ++ [x0a])).
      apply includes_take. rewrite !length_app. cbn. lia.
    - rewrite <- !app_assoc.
      rewrite (app_assoc header_json), (app_assoc (header_json ++ [x0a])),
        (app_assoc ((header_json ++ [x0a]) ++ pre)),
        (app_assoc (((header_json ++ [x0a]) ++ pre) ++ SHEBANG)).
      apply includes_take. rewrite !length_app. cbn. lia. }
  by rewrite Harch.
Qed.

End Unpack.

(** A stand-in for [JSON.parse(...).name] on the bytes [{"name":"a"}]. *)
Definition toy_header : list byte :=
  [x7b; x22; x6e; x61; x6d; x65; x22; x3a; x22; x61; x22; x7d].

Definition toy_JSON_name (header_json : list byte) : result string :=
  if bool_decide (header_json = toy_header) then Ok "a"%string
  else Throw "Unexpected token".

Lemma unpack_file_payload_witness :
  unpack toy_JSON_name (fun _ => []) (file_payload toy_header [x68; x0a; x69])
  = Ok (mkReceived ["a"%string] "file" 3 [("a"%string, [x68; x0a; x69])]).
Proof.
  apply (unpack_file_payload toy_JSON_name (fun _ => []) toy_header
           [x68; x0a; x69] "a").
  - intros H. repeat (apply elem_of_cons in H as [H|H]; [discriminate|]).
    by apply elem_of_nil in H.
  - reflexivity.
  - reflexivity.
Defined.

Lemma script_taken_for_archive_witness :
  let content := [x0a] ++ SHEBANG ++ [x0a; x23; x20] ++ SLURP ++ [x0a] in
  unpack toy_JSON_name (fun _ => ["x"%string]) (file_payload toy_header content)
  = Ok (mkReceived ["x"%string] "directory"
          (length (file_payload toy_header content)) []).
Proof.
  cbv zeta.
  apply (script_taken_for_archive toy_JSON_name (fun _ => ["x"%string])
           toy_header _ [x0a] [x0a; x23; x20] [x0a]).
  - reflexivity.
  - cbn. lia.
Defined.

End PayloadFacts.
